(** * DevDonalds cookbook: entries, recipe resolution and summaries

    A shallow embedding of the cookbook service (file [devdonalds.ts]):
    the [/entry] handler that registers ingredients and recipes, the
    [/summary] handler with [buildSummary], [getRecipeIngredients] and
    [addToMapEntry], and the [parse_handwriting] helper.

    Modelling decisions.
    - A JavaScript [number] is a binary64 floating-point number, the
      primitive type [float]: [+] and [*] round to nearest (ties to even)
      and overflow to [infinity], and [0 * infinity] is [nan], as in the
      program.
    - The two catalog maps are [gmap string _]: the program only uses
      [get], [has] and [set] on them.
    - The ingredient table built by [getRecipeIngredients] is a JavaScript
      [Map] that is iterated, so it is an association list in insertion
      order with pairwise different keys.
    - [getRecipeIngredients] recurses through the catalog and has no guard
      against cycles; the embedding takes a recursion budget and returns
      [Diverge] when it is exhausted. *)

From Stdlib Require Import ZArith QArith Qcanon Floats.
From stdpp Require Import numbers strings gmap fin_maps list.

Local Open Scope float_scope.
#[local] Set Warnings "-clear-no-such-hyp".

(** ** Data model *)

Record RequiredItem := mkRequiredItem {
  item_name : string;
  quantity : float
}.

Record Recipe := mkRecipe {
  recipe_name : string;
  requiredItems : list RequiredItem
}.

Record Ingredient := mkIngredient {
  ingredient_name : string;
  cookTime : float
}.

(** The discriminated union [cookbookEntrySchema]. *)
Inductive CookbookEntry :=
| EntryRecipe (r : Recipe)
| EntryIngredient (i : Ingredient).

Definition entry_name (e : CookbookEntry) : string :=
  match e with
  | EntryRecipe r => recipe_name r
  | EntryIngredient i => ingredient_name i
  end.

Record Cookbook := mkCookbook {
  recipes : gmap string Recipe;
  ingredients : gmap string Ingredient
}.

(** The initial [cookbook] constant: two fresh maps. *)
Definition cookbook0 : Cookbook := mkCookbook ∅ ∅.

(** ** Results of running a function

    [Diverge]: the recursion budget ran out (the JavaScript call never
    returns normally); [Throw]: a [TypeError] was raised;
    [Return v]: normal completion. *)
Inductive outcome (A : Type) :=
| Diverge
| Throw
| Return (v : A).
Arguments Diverge {A}.
Arguments Throw {A}.
Arguments Return {A} v.

(** ** The ingredient table: a JavaScript [Map<string, number>] *)

Definition Table := list (string * float).

Fixpoint map_get (k : string) (m : Table) : option float :=
  match m with
  | [] => None
  | (k', v) :: m' => if decide (k = k') then Some v else map_get k m'
  end.

(** [Map.prototype.set]: an existing key keeps its position, a new key is
    appended. *)
Fixpoint map_set (k : string) (v : float) (m : Table) : Table :=
  match m with
  | [] => [(k, v)]
  | (k', v') :: m' =>
      if decide (k = k') then (k, v) :: m' else (k', v') :: map_set k v m'
  end.

(** [map.set(entry, (map.get(entry) ?? 0) + quantity)] *)
Definition addToMapEntry (entry : string) (qty : float) (map : Table)
    : Table :=
  map_set entry (default 0 (map_get entry map) + qty) map.

(** ** getRecipeIngredients *)

(** The inner [for ... of innerRecipeIngredients.entries()] loop. *)
Definition addInner (qty : float) (inner : Table) (table : Table) : Table :=
  fold_left (λ acc kv, addToMapEntry kv.1 (kv.2 * qty) acc) inner table.

(** The [for (const requiredItem of recipe.requiredItems)] loop, with the
    recursive call abstracted as [self]; [table] is the local map
    [ingredients] of the source. *)
Fixpoint resolveItems (self : Recipe → outcome (option Table))
    (cookbook : Cookbook) (items : list RequiredItem) (table : Table)
    : outcome (option Table) :=
  match items with
  | [] => Return (Some table)
  | requiredItem :: rest =>
      match cookbook.(ingredients) !! item_name requiredItem with
      | Some _ =>
          resolveItems self cookbook rest
            (addToMapEntry (item_name requiredItem) (quantity requiredItem)
               table)
      | None =>
          match cookbook.(recipes) !! item_name requiredItem with
          | Some recipe =>
              match self recipe with
              | Return (Some innerRecipeIngredients) =>
                  resolveItems self cookbook rest
                    (addInner (quantity requiredItem) innerRecipeIngredients
                       table)
              | Return None => Return None
              | Throw => Throw
              | Diverge => Diverge
              end
          | None => Return None
          end
      end
  end.

Fixpoint getRecipeIngredients (fuel : nat) (cookbook : Cookbook)
    (recipe : Recipe) : outcome (option Table) :=
  match fuel with
  | O => Diverge
  | S fuel' =>
      resolveItems (getRecipeIngredients fuel' cookbook) cookbook
        (requiredItems recipe) []
  end.

(** ** buildSummary *)

Record Summary := mkSummary {
  summary_name : string;
  summary_cookTime : float;
  summary_ingredients : list (string * float)
}.

(** The [for (const [recipeIngredient, quantity] of recipeIngredients)]
    loop; [cookbook.ingredients.get(recipeIngredient)!.cookTime] raises a
    [TypeError] when the lookup is [undefined]. *)
Fixpoint summaryLoop (cookbook : Cookbook) (entries : Table)
    (summary : Summary) : outcome Summary :=
  match entries with
  | [] => Return summary
  | (recipeIngredient, qty) :: rest =>
      match cookbook.(ingredients) !! recipeIngredient with
      | None => Throw
      | Some ingredient =>
          summaryLoop cookbook rest
            (mkSummary (summary_name summary)
               (summary_cookTime summary + cookTime ingredient * qty)
               (summary_ingredients summary ++ [(recipeIngredient, qty)]))
      end
  end.

Definition buildSummary (fuel : nat) (cookbook : Cookbook) (recipe : Recipe)
    : outcome (option Summary) :=
  match getRecipeIngredients fuel cookbook recipe with
  | Diverge => Diverge
  | Throw => Throw
  | Return None => Return None
  | Return (Some recipeIngredients) =>
      match summaryLoop cookbook recipeIngredients
              (mkSummary (recipe_name recipe) 0 []) with
      | Return summary => Return (Some summary)
      | Throw => Throw
      | Diverge => Diverge
      end
  end.

(** ** HTTP handlers *)

Inductive Payload :=
| Text (message : string)
| Json (summary : Summary).

Record Response := mkResponse {
  status : nat;
  payload : Payload
}.

(** The value of [cookbookEntrySchema.safeParse(req.body)]. The schema
    library is external: on success its [data] has the shape of
    [CookbookEntry] and satisfies the [gte(0)] refinements, stated by
    [schema_ok] below. *)
Inductive SafeParseReturn :=
| ParseFailure (message : string)
| ParseSuccess (data : CookbookEntry).

Definition schema_ok (e : CookbookEntry) : Prop :=
  match e with
  | EntryRecipe r =>
      Forall (λ it, (0 <=? quantity it) = true) (requiredItems r)
  | EntryIngredient i => (0 <=? cookTime i) = true
  end.

(** [Map.prototype.has] *)
Definition map_has {V} (m : gmap string V) (k : string) : bool :=
  bool_decide (is_Some (m !! k)).

(** [new Set(names).size] *)
Definition js_set_size (names : list string) : nat :=
  size (list_to_set names : gset string).

(** [app.post("/entry", ...)]: the new state of the catalog and the
    response sent. *)
Definition post_entry (cookbook : Cookbook) (parsedInput : SafeParseReturn)
    : Cookbook * Response :=
  match parsedInput with
  | ParseFailure message =>
      (cookbook,
       mkResponse 400 (Text ("Improperly formatted payload: " +:+ message)))
  | ParseSuccess cookbookEntry =>
      if map_has cookbook.(ingredients) (entry_name cookbookEntry)
         || map_has cookbook.(recipes) (entry_name cookbookEntry)
      then
        (cookbook,
         mkResponse 400
           (Text "An existing entry with the same name already exist."))
      else
        match cookbookEntry with
        | EntryRecipe r =>
            let requiredItemNames := item_name <$> requiredItems r in
            if negb (js_set_size requiredItemNames =? length requiredItemNames)%nat
            then
              (cookbook,
               mkResponse 400
                 (Text "Required items cannot have multiple elements with the same name."))
            else
              (mkCookbook (<[recipe_name r := r]> cookbook.(recipes))
                 cookbook.(ingredients),
               mkResponse 200 (Text "Cookbook Entry successfully added!"))
        | EntryIngredient i =>
            (mkCookbook cookbook.(recipes)
               (<[ingredient_name i := i]> cookbook.(ingredients)),
             mkResponse 200 (Text "Cookbook Entry successfully added!"))
        end
  end.

(** [app.get("/summary", ...)]; [input] is [req.query.name], [None] when it
    is not a string. *)
Definition get_summary (fuel : nat) (cookbook : Cookbook)
    (input : option string) : outcome Response :=
  match input with
  | None =>
      Return (mkResponse 400 (Text "Query parameter 'name' must be a string!"))
  | Some input =>
      match cookbook.(ingredients) !! input with
      | Some _ =>
          Return (mkResponse 400
                    (Text "An existing ingredient has the provided name."))
      | None =>
          match cookbook.(recipes) !! input with
          | None =>
              Return (mkResponse 400
                        (Text "No recipe with the provided name found."))
          | Some recipe =>
              match buildSummary fuel cookbook recipe with
              | Diverge => Diverge
              | Throw => Throw
              | Return None =>
                  Return (mkResponse 400
                    (Text "The recipe contains recipes or ingredients not in the cookbook."))
              | Return (Some summary) =>
                  Return (mkResponse 200 (Json summary))
              end
          end
      end
  end.

(** Running a sequence of [/entry] requests. *)
Definition post_entries (cookbook : Cookbook) (reqs : list SafeParseReturn)
    : Cookbook :=
  fold_left (λ cb req, (post_entry cb req).1) reqs cookbook.

(** The names of the entries that a sequence of [/entry] requests
    registered: the requests answered with status 200, in order. *)
Fixpoint registered_names (cookbook : Cookbook) (reqs : list SafeParseReturn)
    : list string :=
  match reqs with
  | [] => []
  | req :: rest =>
      let names :=
        match req with
        | ParseSuccess e =>
            if (status (post_entry cookbook req).2 =? 200)%nat
            then [entry_name e] else []
        | ParseFailure _ => []
        end in
      names ++ registered_names (post_entry cookbook req).1 rest
  end.

(** ** parse_handwriting

    A JavaScript string is a sequence of UTF-16 code units, here numbers. *)

Abbreviation jsstring := (list N).

(** The code units of a string of the development (one per byte). *)
Definition str (s : string) : jsstring :=
  Ascii.N_of_ascii <$> String.list_ascii_of_string s.

Local Open Scope N_scope.

(** The class [\s] of a regular expression without the [u] flag: white
    space and line terminators. *)
Definition is_ws (c : N) : bool :=
  (9 <=? c) && (c <=? 13)
  || (c =? 32) || (c =? 160) || (c =? 5760)
  || (8192 <=? c) && (c <=? 8202)
  || (c =? 8232) || (c =? 8233) || (c =? 8239) || (c =? 8287)
  || (c =? 12288) || (c =? 65279).

(** [[a-zA-Z]] and [[a-zA-Z\d]] *)
Definition is_alpha (c : N) : bool :=
  (65 <=? c) && (c <=? 90) || (97 <=? c) && (c <=? 122).

Definition is_digit (c : N) : bool := (48 <=? c) && (c <=? 57).

Definition is_alnum (c : N) : bool := is_alpha c || is_digit c.

(** [toUpperCase] and [toLowerCase], on the code units that reach them in
    [parse_handwriting]: ASCII letters and digits. *)
Definition toUpperCase (c : N) : N :=
  if (97 <=? c) && (c <=? 122) then c - 32 else c.

Definition toLowerCase (c : N) : N :=
  if (65 <=? c) && (c <=? 90) then c + 32 else c.

(** [.replace(/[-_]/g, " ")], one code unit at a time. *)
Definition dash_to_space (c : N) : N :=
  if (c =? 45) || (c =? 95) then 32 else c.

(** [.split(/\s+/)]: the pieces between the maximal runs of white space;
    a run at either end gives an empty piece there, and the empty string
    gives one empty piece. *)
Fixpoint split_ws (s : jsstring) : list jsstring :=
  match s with
  | [] => [[]]
  | c :: s' =>
      if is_ws c then
        match s' with
        | c' :: _ => if is_ws c' then split_ws s' else [] :: split_ws s'
        | [] => [] :: split_ws s'
        end
      else
        match split_ws s' with
        | w :: ws => (c :: w) :: ws
        | [] => [[c]]
        end
  end.

(** [word.substring(0, 1).toUpperCase() + word.substring(1).toLowerCase()] *)
Definition titlecase (word : jsstring) : jsstring :=
  (toUpperCase <$> take 1 word) ++ (toLowerCase <$> drop 1 word).

(** [.join(" ")] *)
Fixpoint join_space (words : list jsstring) : jsstring :=
  match words with
  | [] => []
  | [w] => w
  | w :: ws => w ++ 32 :: join_space ws
  end.

(** The body of [parse_handwriting]; [keep] is the class of the characters
    that the inner [replace] does not delete. *)
Definition parse_with (keep : N → bool) (recipeName : jsstring)
    : option jsstring :=
  let recipeWords :=
    titlecase
      <$> filter (λ word, (0 < length word)%nat)
            (filter (λ c, keep c = true)
               <$> split_ws (dash_to_space <$> recipeName)) in
  if (length recipeWords =? 0)%nat then None else Some (join_space recipeWords).

(** [parse_handwriting] of the solution: [/[^a-zA-Z]/g] is deleted. *)
Definition parse_handwriting (recipeName : jsstring) : option jsstring :=
  parse_with is_alpha recipeName.

(** [parse_handwriting] of [devdonalds.ts]: [/[^a-zA-Z\d]/g] is deleted. *)
Definition parse_handwriting_ts (recipeName : jsstring) : option jsstring :=
  parse_with is_alnum recipeName.

(** A character at which a word ends: white space, hyphen or underscore. *)
Definition is_sep (c : N) : bool := is_ws (dash_to_space c).

(** The same result, produced in one pass from left to right: a kept
    character that is the first one kept since the last separator is
    written in upper case, after one space unless the output is still
    empty; any other kept character is written in lower case; every other
    character is dropped. [started]: something was written; [in_word]:
    something was written since the last separator. *)
Fixpoint scan (keep : N → bool) (s : jsstring) (started in_word : bool)
    : jsstring :=
  match s with
  | [] => []
  | c :: s' =>
      if is_sep c then scan keep s' started false
      else if keep c then
        (if in_word then [toLowerCase c]
         else (if started then [32] else []) ++ [toUpperCase c])
        ++ scan keep s' true true
      else scan keep s' started in_word
  end.

(** The words of a list written one after the other, title-cased, empty
    ones skipped, each after one space except the first when [st] is
    [false]. *)
Fixpoint emit (st : bool) (ws : list jsstring) : jsstring :=
  match ws with
  | [] => []
  | w :: ws' =>
      match w with
      | [] => emit st ws'
      | _ :: _ => (if st then [32%N] else []) ++ titlecase w ++ emit true ws'
      end
  end.

Definition title_scan (keep : N → bool) (s : jsstring) : option jsstring :=
  if existsb keep s then Some (scan keep s false false) else None.

(** The normalization in the words of the specification: hyphens,
    underscores and every other character that is not a letter or a digit
    become spaces, runs of spaces count as one, the words are title-cased;
    [None] when no word is left. *)
Definition claimed_normalize (recipeName : jsstring) : option jsstring :=
  let words :=
    filter (λ word, (0 < length word)%nat)
      (split_ws ((λ c, if is_alnum c then c else 32) <$> recipeName)) in
  if (length words =? 0)%nat then None
  else Some (join_space (titlecase <$> words)).

(** [[A-Z]] and [[a-z]] *)
Definition is_upper (c : N) : bool := (65 <=? c) && (c <=? 90).

Definition is_lower (c : N) : bool := (97 <=? c) && (c <=? 122).

(** A word as [parse_handwriting] writes it: one character of the class
    [first] followed by characters of the class [others]. *)
Definition word_shape (first others : N → bool) (w : jsstring) : Prop :=
  ∃ c w', w = c :: w' ∧ first c = true ∧ Forall (λ x, others x = true) w'.

(** The answer of the [/parse] handler: [res.status(400).send(text)] or
    [res.json({ msg })] (status 200). *)
Inductive ParseAnswer :=
| Cooked (status : nat) (text : string)
| Msg (msg : jsstring).

(** [app.post("/parse", ...)]; [input] is [req.body.input], [None] when it
    is not a string: [parse_handwriting] then calls [replace] on a value
    that has no such method, which raises a [TypeError]. *)
Definition post_parse (input : option jsstring) : outcome ParseAnswer :=
  match input with
  | None => Throw
  | Some input =>
      match parse_handwriting input with
      | None => Return (Cooked 400 "this string is cooked")
      | Some parsed_string => Return (Msg parsed_string)
      end
  end.

Local Close Scope N_scope.

(** ** The scenarios of the specification *)

(** Integer constants as JavaScript numbers. *)
Definition qz (n : Z) : float :=
  SF2Prim (binary_normalize prec emax n 0 false).

Definition egg : CookbookEntry := EntryIngredient (mkIngredient "egg" (qz 5)).
Definition flour : CookbookEntry := EntryIngredient (mkIngredient "flour" (qz 2)).
Definition batter : Recipe :=
  mkRecipe "batter" [mkRequiredItem "egg" (qz 2); mkRequiredItem "flour" (qz 1)].
Definition cake : Recipe :=
  mkRecipe "cake" [mkRequiredItem "batter" (qz 3); mkRequiredItem "egg" (qz 1)].

Definition scenarioA : Cookbook :=
  post_entries cookbook0
    [ParseSuccess egg; ParseSuccess flour; ParseSuccess (EntryRecipe batter)].

Definition scenarioB : Cookbook :=
  post_entries scenarioA [ParseSuccess (EntryRecipe cake)].

(** Scenario E: a recipe that requires a name that was never registered. *)
Definition soup : Recipe := mkRecipe "soup" [mkRequiredItem "water" (qz 1)].

Definition scenarioE : Cookbook :=
  post_entries cookbook0 [ParseSuccess (EntryRecipe soup)].

(** A recipe that requires itself: the handler accepts it, since its name
    is new and its required items have different names. *)
Definition ouroboros : Recipe :=
  mkRecipe "ouroboros" [mkRequiredItem "ouroboros" (qz 1)].

Definition cyclic_cookbook : Cookbook :=
  post_entries cookbook0 [ParseSuccess (EntryRecipe ouroboros)].

(** A recipe whose first required item fails and whose second one would
    recurse for ever. *)
Definition stew : Recipe :=
  mkRecipe "stew"
    [mkRequiredItem "soup" (qz 1); mkRequiredItem "ouroboros" (qz 1)].

Definition stew_cookbook : Cookbook :=
  post_entries cookbook0
    [ParseSuccess (EntryRecipe soup); ParseSuccess (EntryRecipe ouroboros);
     ParseSuccess (EntryRecipe stew)].

(** A recipe without required items. *)
Definition water : Recipe := mkRecipe "water" [].

Definition water_cookbook : Cookbook :=
  post_entries cookbook0 [ParseSuccess (EntryRecipe water)].

(** A quantity beyond the integers that binary64 holds exactly: [heap]
    lists [grain] at [2^53] and, through [one], once more. *)
Definition grain : CookbookEntry :=
  EntryIngredient (mkIngredient "grain" (qz 1)).
Definition one : Recipe := mkRecipe "one" [mkRequiredItem "grain" (qz 1)].
Definition heap : Recipe :=
  mkRecipe "heap"
    [mkRequiredItem "grain" (qz (2 ^ 53)); mkRequiredItem "one" (qz 1)].

Definition heap_cookbook : Cookbook :=
  post_entries cookbook0
    [ParseSuccess grain; ParseSuccess (EntryRecipe one);
     ParseSuccess (EntryRecipe heap)].

(** The JSON number [0.1]. *)
Definition tenth : float := qz 1 / qz 10.

(** [salad] lists [dressing] at 3, and [dressing] lists [oil] at 0.1. *)
Definition oil : CookbookEntry := EntryIngredient (mkIngredient "oil" (qz 1)).
Definition dressing : Recipe :=
  mkRecipe "dressing" [mkRequiredItem "oil" tenth].
Definition salad : Recipe :=
  mkRecipe "salad" [mkRequiredItem "dressing" (qz 3)].

Definition salad_cookbook : Cookbook :=
  post_entries cookbook0
    [ParseSuccess oil; ParseSuccess (EntryRecipe dressing);
     ParseSuccess (EntryRecipe salad)].

(** A flat recipe with one large and two small quantities. *)
Definition rice : CookbookEntry := EntryIngredient (mkIngredient "rice" (qz 1)).
Definition salt : CookbookEntry := EntryIngredient (mkIngredient "salt" (qz 1)).
Definition pepper : CookbookEntry :=
  EntryIngredient (mkIngredient "pepper" (qz 1)).
Definition pilaf : Recipe :=
  mkRecipe "pilaf"
    [mkRequiredItem "rice" (qz (2 ^ 53)); mkRequiredItem "salt" (qz 1);
     mkRequiredItem "pepper" (qz 1)].

Definition pilaf_cookbook : Cookbook :=
  post_entries cookbook0
    [ParseSuccess rice; ParseSuccess salt; ParseSuccess pepper;
     ParseSuccess (EntryRecipe pilaf)].

(** Quantities that overflow: [air] has cookTime 0, [big] lists [air] at
    [1e308], [bigger] lists [big] at [1e308], and [nothing] lists [bigger]
    at 0. *)
Definition air : CookbookEntry := EntryIngredient (mkIngredient "air" (qz 0)).
Definition big : Recipe :=
  mkRecipe "big" [mkRequiredItem "air" (qz (10 ^ 308))].
Definition bigger : Recipe :=
  mkRecipe "bigger" [mkRequiredItem "big" (qz (10 ^ 308))].
Definition nothing : Recipe :=
  mkRecipe "nothing" [mkRequiredItem "bigger" (qz 0)].

Definition overflow_requests : list SafeParseReturn :=
  [ParseSuccess air; ParseSuccess (EntryRecipe big);
   ParseSuccess (EntryRecipe bigger); ParseSuccess (EntryRecipe nothing)].

Definition overflow_cookbook : Cookbook :=
  post_entries cookbook0 overflow_requests.

(** ** Notions used in the statements *)

(** A table with pairwise different keys, all of them catalog ingredients. *)
Definition table_ok (cookbook : Cookbook) (t : Table) : Prop :=
  NoDup t.*1 ∧ ∀ k, k ∈ t.*1 → is_Some (cookbook.(ingredients) !! k).

Definition self_ok (cookbook : Cookbook)
    (self : Recipe → outcome (option Table)) : Prop :=
  ∀ r t, self r = Return (Some t) → table_ok cookbook t.

(** The same number, as JavaScript's [SameValueZero] has it: the same
    value, where [0] and [-0] count as the same. *)
Definition same_number (x y : float) : Prop := x = y ∨ (x =? y) = true.

(** Not below zero: at least [0] (or [-0]), possibly [infinity], or [nan]. *)
Definition not_negative (x : float) : Prop := (x <? 0) = false.

(** [not_negative] on the specification of binary64. *)
Definition SFnot_negative (x : spec_float) : bool :=
  match x with
  | S754_zero _ | S754_nan => true
  | S754_infinity s | S754_finite s _ _ => negb s
  end.

(** The rational number that a finite float stands for; [infinity] and
    [nan] stand for none. *)
Definition rational_of (x : float) : option Qc :=
  match Prim2SF x with
  | S754_zero _ => Some (Q2Qc 0)
  | S754_finite s m e =>
      Some (Q2Qc ((if s then -1 else 1) * inject_Z (Zpos m) * Qpower 2 e))
  | _ => None
  end.

(** What one required item adds to the entry of [x], if anything: its own
    quantity when it is the ingredient [x]; the entry of [x] in the inner
    table times the quantity of the item, when it is a recipe that [self]
    resolves to a table that has [x]. *)
Definition item_contribution (self : Recipe → outcome (option Table))
    (cookbook : Cookbook) (x : string) (it : RequiredItem) : option float :=
  match cookbook.(ingredients) !! item_name it with
  | Some _ => if decide (item_name it = x) then Some (quantity it) else None
  | None =>
      match cookbook.(recipes) !! item_name it with
      | Some r =>
          match self r with
          | Return (Some inner) => (λ v, v * quantity it) <$> map_get x inner
          | _ => None
          end
      | None => None
      end
  end.

(** The contributions of a list of required items, in their order. *)
Definition contributions (self : Recipe → outcome (option Table))
    (cookbook : Cookbook) (x : string) (items : list RequiredItem)
    : list float :=
  omap (item_contribution self cookbook x) items.

(** Adding contributions to an entry one after the other, from left to
    right; an absent entry starts at [0]. *)
Definition accumulate (entry : option float) (ks : list float)
    : option float :=
  fold_left (λ acc k, Some (default 0 acc + k)) ks entry.

(** A table with every quantity multiplied by [m]. *)
Definition scale_table (m : float) (inner : Table) : Table :=
  (λ kv, (kv.1, kv.2 * m)) <$> inner.

(** Adding the entries of one table to another, entry by entry. *)
Definition add_table (entries : Table) (table : Table) : Table :=
  fold_left (λ acc kv, addToMapEntry kv.1 kv.2 acc) entries table.

(** The names in the tree of required items of a recipe. A required item
    that names an ingredient is a leaf; one that names a recipe (and no
    ingredient) is expanded, as the resolver does. *)
Inductive mentions (cookbook : Cookbook) : Recipe → string → Prop :=
| mentions_here r it :
    it ∈ requiredItems r → mentions cookbook r (item_name it)
| mentions_sub r it r' n :
    it ∈ requiredItems r →
    cookbook.(ingredients) !! item_name it = None →
    cookbook.(recipes) !! item_name it = Some r' →
    mentions cookbook r' n →
    mentions cookbook r n.

(** The tree of required items of a recipe is well founded: no chain of
    sub-recipes goes on for ever, that is, no recipe below [r] requires
    itself, directly or not. *)
Inductive acyclic (cookbook : Cookbook) : Recipe → Prop :=
| acyclic_intro r :
    (∀ it r',
       it ∈ requiredItems r →
       cookbook.(ingredients) !! item_name it = None →
       cookbook.(recipes) !! item_name it = Some r' →
       acyclic cookbook r') →
    acyclic cookbook r.

(** The catalog invariant: no name is both an ingredient and a recipe. *)
Definition catalog_disjoint (cookbook : Cookbook) : Prop :=
  ∀ n, ¬ (is_Some (cookbook.(ingredients) !! n)
          ∧ is_Some (cookbook.(recipes) !! n)).

(** The cookTime of the ingredient named [k] ([0] if there is none). *)
Definition cookTime_of (cookbook : Cookbook) (k : string) : float :=
  from_option cookTime 0 (cookbook.(ingredients) !! k).

(** [cookTime(ingredient) * quantity] added up over the entries of a
    table, from [0], in the order of the table. *)
Definition total_cookTime (cookbook : Cookbook) (t : Table) : float :=
  fold_left (λ acc kv, acc + cookTime_of cookbook kv.1 * kv.2) t 0.

(** What the schema guarantees of every stored entity: [quantity >= 0]
    and [cookTime >= 0]. *)
Definition catalog_nonneg (cookbook : Cookbook) : Prop :=
  (∀ n r, cookbook.(recipes) !! n = Some r →
          Forall (λ it, (0 <=? quantity it) = true) (requiredItems r))
  ∧ (∀ n i, cookbook.(ingredients) !! n = Some i →
            (0 <=? cookTime i) = true).

Definition table_not_negative (t : Table) : Prop :=
  Forall (λ kv, not_negative kv.2) t.

(** A request as the schema library can hand it over. *)
Definition parsed_ok (req : SafeParseReturn) : Prop :=
  match req with
  | ParseSuccess e => schema_ok e
  | ParseFailure _ => True
  end.


(** The catalog [cb'] holds everything that [cb] holds, unchanged, and no
    name of a recipe of [cb] has become an ingredient. *)
Definition extends (cb cb' : Cookbook) : Prop :=
  (∀ n i, cb.(ingredients) !! n = Some i → cb'.(ingredients) !! n = Some i)
  ∧ (∀ n r, cb.(recipes) !! n = Some r → cb'.(recipes) !! n = Some r)
  ∧ (∀ n, cb.(ingredients) !! n = None → is_Some (cb.(recipes) !! n) →
          cb'.(ingredients) !! n = None).

(** The catalog after the entry [e] is stored. *)
Definition insert_entry (e : CookbookEntry) (cb : Cookbook) : Cookbook :=
  match e with
  | EntryRecipe r =>
      mkCookbook (<[recipe_name r := r]> cb.(recipes)) cb.(ingredients)
  | EntryIngredient i =>
      mkCookbook cb.(recipes) (<[ingredient_name i := i]> cb.(ingredients))
  end.

(** The check of [/entry] that does not depend on the catalog. *)
Definition items_distinct (e : CookbookEntry) : Prop :=
  match e with
  | EntryRecipe r => NoDup (item_name <$> requiredItems r)
  | EntryIngredient _ => True
  end.

(** * Properties *)

(** ** The table as a map *)

Section table.
Implicit Types (m inner : Table) (k x : string) (v q : float).

Lemma map_get_None k m : map_get k m = None ↔ k ∉ m.*1.
Proof.
  induction m as [|[k' v'] m IH]; csimpl.
  - split; [intros _; apply not_elem_of_nil | done].
  - case_decide as Hk; subst.
    + split; [done | intros Hn; exfalso; apply Hn; left].
    + rewrite IH, not_elem_of_cons. naive_solver.
Qed.

Lemma map_get_Some_elem k v m : map_get k m = Some v → (k, v) ∈ m.
Proof.
  induction m as [|[k' v'] m IH]; simpl; [done|].
  case_decide; subst.
  - intros [= ->]. left.
  - intros. right. auto.
Qed.

Lemma map_get_elem k v m : NoDup m.*1 → (k, v) ∈ m → map_get k m = Some v.
Proof.
  induction m as [|[k' v'] m IH]; csimpl.
  - intros _ H. by apply elem_of_nil in H.
  - intros [Hk' Hnd]%NoDup_cons [[= -> ->]|Hin]%elem_of_cons.
    + by rewrite decide_True.
    + rewrite decide_False; [auto|].
      intros ->. apply Hk'. apply list_elem_of_fmap. by exists (k', v).
Qed.

Lemma map_get_set k k' v m :
  map_get k' (map_set k v m) = if decide (k' = k) then Some v else map_get k' m.
Proof.
  induction m as [|[k0 v0] m IH]; simpl.
  - repeat case_decide; congruence.
  - repeat (case_decide; simpl); subst; try congruence.
    all: rewrite IH; repeat case_decide; congruence.
Qed.

Lemma map_set_keys k v m :
  (map_set k v m).*1 = if decide (k ∈ m.*1) then m.*1 else m.*1 ++ [k].
Proof.
  induction m as [|[k0 v0] m IH]; csimpl; [done|].
  destruct (decide (k = k0)) as [->|Hk]; csimpl.
  - rewrite decide_True; [done | left].
  - rewrite IH. destruct (decide (k ∈ m.*1)) as [Hin|Hin].
    + rewrite decide_True; [done | by right].
    + rewrite decide_False; [done|]. rewrite not_elem_of_cons. done.
Qed.

Lemma map_set_elem_keys k v m x :
  x ∈ (map_set k v m).*1 ↔ x = k ∨ x ∈ m.*1.
Proof.
  rewrite map_set_keys. case_decide.
  - naive_solver.
  - rewrite elem_of_app, list_elem_of_singleton. naive_solver.
Qed.

Lemma map_set_NoDup k v m : NoDup m.*1 → NoDup (map_set k v m).*1.
Proof.
  intros Hnd. rewrite map_set_keys. case_decide; [done|].
  apply NoDup_app. split_and!; [done | | apply NoDup_singleton].
  intros y Hy ->%list_elem_of_singleton. done.
Qed.

Lemma map_get_add k q m x :
  map_get x (addToMapEntry k q m)
  = if decide (x = k) then Some (default 0 (map_get k m) + q)
    else map_get x m.
Proof. unfold addToMapEntry. apply map_get_set. Qed.

Lemma add_elem_keys k q m x :
  x ∈ (addToMapEntry k q m).*1 ↔ x = k ∨ x ∈ m.*1.
Proof. apply map_set_elem_keys. Qed.

Lemma add_NoDup k q m : NoDup m.*1 → NoDup (addToMapEntry k q m).*1.
Proof. apply map_set_NoDup. Qed.

Lemma addInner_cons q k v inner m :
  addInner q ((k, v) :: inner) m = addInner q inner (addToMapEntry k (v * q) m).
Proof. done. Qed.

Lemma addInner_NoDup q inner m : NoDup m.*1 → NoDup (addInner q inner m).*1.
Proof.
  revert m. induction inner as [|[k v] inner IH]; intros m Hm; [done|].
  rewrite addInner_cons. by apply IH, add_NoDup.
Qed.

Lemma addInner_elem_keys q inner m x :
  x ∈ (addInner q inner m).*1 ↔ x ∈ m.*1 ∨ x ∈ inner.*1.
Proof.
  revert m. induction inner as [|[k v] inner IH]; intros m.
  - simpl. rewrite elem_of_nil. naive_solver.
  - rewrite addInner_cons, IH, add_elem_keys. simpl.
    rewrite elem_of_cons. naive_solver.
Qed.

(** Every entry of [inner] is added once, multiplied by [q]. *)
Lemma map_get_addInner q inner m x :
  NoDup inner.*1 →
  map_get x (addInner q inner m)
  = match map_get x inner with
    | Some v => Some (default 0 (map_get x m) + v * q)
    | None => map_get x m
    end.
Proof.
  revert m. induction inner as [|[k v] inner IH]; intros m Hnd; [done|].
  rewrite fmap_cons in Hnd. apply NoDup_cons in Hnd as [Hk Hnd].
  rewrite addInner_cons, IH, map_get_add by done. cbn [map_get].
  simpl in Hk. destruct (decide (x = k)) as [->|Hx].
  - apply map_get_None in Hk. by rewrite Hk.
  - done.
Qed.

End table.

(** ** Resolution: invariants of the table *)

Section resolve.
Context (cookbook : Cookbook).
Implicit Types (self : Recipe → outcome (option Table)).
Implicit Types (items : list RequiredItem) (t : Table) (x : string).

Lemma table_ok_nil : table_ok cookbook [].
Proof.
  split; [constructor|]. intros k Hk. by apply elem_of_nil in Hk.
Qed.

Lemma table_ok_add k q t :
  is_Some (cookbook.(ingredients) !! k) → table_ok cookbook t →
  table_ok cookbook (addToMapEntry k q t).
Proof.
  intros Hk [Hnd Hin]. split; [by apply add_NoDup|].
  intros k' [->|?]%add_elem_keys; auto.
Qed.

Lemma table_ok_addInner q inner t :
  table_ok cookbook inner → table_ok cookbook t → table_ok cookbook (addInner q inner t).
Proof.
  intros [_ Hi] [Hnd Hin]. split; [by apply addInner_NoDup|].
  intros k [?|?]%addInner_elem_keys; auto.
Qed.

Lemma resolveItems_ok self items t0 t :
  self_ok cookbook self → table_ok cookbook t0 →
  resolveItems self cookbook items t0 = Return (Some t) → table_ok cookbook t.
Proof.
  intros Hself. revert t0.
  induction items as [|it items IH]; intros t0 Ht0; simpl.
  - by intros [= <-].
  - destruct (ingredients cookbook !! item_name it) as [i|] eqn:Hi.
    + apply IH. apply table_ok_add; [by rewrite Hi | done].
    + destruct (recipes cookbook !! item_name it) as [r|]; [|done].
      destruct (self r) as [| |[inner|]] eqn:Hr; try done.
      apply IH. apply table_ok_addInner; [by eapply Hself | done].
Qed.

Lemma getRecipeIngredients_ok fuel r t :
  getRecipeIngredients fuel cookbook r = Return (Some t) → table_ok cookbook t.
Proof.
  revert r t. induction fuel as [|fuel IH]; intros r t; simpl; [done|].
  apply resolveItems_ok; [exact IH | apply table_ok_nil].
Qed.

(** [getRecipeIngredients] has no [throw]. *)
Lemma resolveItems_no_throw self items t0 :
  (∀ r, self r ≠ Throw) → resolveItems self cookbook items t0 ≠ Throw.
Proof.
  intros Hself. revert t0. induction items as [|it items IH]; intros t0; simpl.
  - done.
  - destruct (ingredients cookbook !! item_name it); [apply IH|].
    destruct (recipes cookbook !! item_name it) as [r|]; [|done].
    specialize (Hself r). destruct (self r) as [| |[inner|]]; done.
Qed.

Lemma getRecipeIngredients_no_throw fuel r :
  getRecipeIngredients fuel cookbook r ≠ Throw.
Proof.
  revert r. induction fuel as [|fuel IH]; intros r; simpl; [done|].
  by apply resolveItems_no_throw.
Qed.

(** More budget never changes a result that was reached. *)
Lemma resolveItems_mono self self' items t0 v :
  (∀ r w, self r = Return w → self' r = Return w) →
  resolveItems self cookbook items t0 = Return v →
  resolveItems self' cookbook items t0 = Return v.
Proof.
  intros Hself. revert t0. induction items as [|it items IH]; intros t0; simpl.
  - done.
  - destruct (ingredients cookbook !! item_name it); [apply IH|].
    destruct (recipes cookbook !! item_name it) as [r|]; [|done].
    destruct (self r) as [| |w] eqn:Hr; try done.
    rewrite (Hself _ _ Hr). destruct w; [apply IH | done].
Qed.

Lemma getRecipeIngredients_mono n m r v :
  (n ≤ m)%nat →
  getRecipeIngredients n cookbook r = Return v →
  getRecipeIngredients m cookbook r = Return v.
Proof.
  revert m r v. induction n as [|n IH]; intros m r v Hle; simpl; [done|].
  destruct m as [|m]; [lia|]. simpl.
  apply resolveItems_mono. intros r' w. apply IH. lia.
Qed.

(** Keys of the result: what was there, and what the items bring. *)
Lemma resolveItems_keys_acc self items t0 t x :
  resolveItems self cookbook items t0 = Return (Some t) →
  x ∈ t0.*1 → x ∈ t.*1.
Proof.
  revert t0. induction items as [|it items IH]; intros t0; simpl.
  - by intros [= <-].
  - destruct (ingredients cookbook !! item_name it).
    + intros H Hx. eapply IH; [done|]. apply add_elem_keys. by right.
    + destruct (recipes cookbook !! item_name it) as [r|]; [|done].
      destruct (self r) as [| |[inner|]]; try done.
      intros H Hx. eapply IH; [done|]. apply addInner_elem_keys. by left.
Qed.

Lemma resolveItems_keys_direct self items t0 t it :
  resolveItems self cookbook items t0 = Return (Some t) →
  it ∈ items → is_Some (cookbook.(ingredients) !! item_name it) →
  item_name it ∈ t.*1.
Proof.
  revert t0. induction items as [|it' items IH]; intros t0 Hres Hin Hi.
  - by apply elem_of_nil in Hin.
  - apply elem_of_cons in Hin as [<-|Hin].
    + simpl in Hres. destruct Hi as [i Hi]. rewrite Hi in Hres.
      eapply resolveItems_keys_acc; [done|]. apply add_elem_keys. by left.
    + simpl in Hres. destruct (ingredients cookbook !! item_name it').
      { by eapply IH. }
      destruct (recipes cookbook !! item_name it') as [r|]; [|done].
      destruct (self r) as [| |[inner|]]; try done. by eapply IH.
Qed.

End resolve.

(** ** Resolution: the quantities *)

(** A list in which exactly two elements contribute. *)
Lemma omap_none {A B} (f : A → option B) (l : list A) :
  (∀ w, w ∈ l → f w = None) → omap f l = [].
Proof.
  induction l as [|w l IH]; intros Hz; [done|]. csimpl.
  rewrite Hz by left. apply IH. intros; apply Hz. by right.
Qed.

Lemma omap_one {A B} (f : A → option B) (l : list A) u ku :
  NoDup l → u ∈ l → f u = Some ku →
  (∀ w, w ∈ l → w ≠ u → f w = None) →
  omap f l = [ku].
Proof.
  induction l as [|w l IH]; intros Hnd Hu Hfu Hz.
  - by apply elem_of_nil in Hu.
  - apply NoDup_cons in Hnd as [Hw Hnd]. csimpl.
    apply elem_of_cons in Hu as [->|Hu].
    + rewrite Hfu, omap_none; [done|]. intros v Hv. apply Hz; [by right|].
      by intros ->.
    + rewrite Hz; [|by left|by intros ->]. apply IH; [done..|].
      intros; apply Hz; [by right|done].
Qed.

Lemma omap_two {A B} (f : A → option B) (l : list A) u v ku kv :
  NoDup l → u ∈ l → v ∈ l → u ≠ v →
  f u = Some ku → f v = Some kv →
  (∀ w, w ∈ l → w ≠ u → w ≠ v → f w = None) →
  omap f l = [ku; kv] ∨ omap f l = [kv; ku].
Proof.
  induction l as [|w l IH]; intros Hnd Hu Hv Huv Hfu Hfv Hz.
  - by apply elem_of_nil in Hu.
  - apply NoDup_cons in Hnd as [Hw Hnd]. csimpl.
    apply elem_of_cons in Hu as [->|Hu]; apply elem_of_cons in Hv as [->|Hv].
    + done.
    + left. rewrite Hfu. f_equal. apply (omap_one f l v); [done..|].
      intros w' Hw' Hne. apply Hz; [by right| |done]. by intros ->.
    + right. rewrite Hfv. f_equal. apply (omap_one f l u); [done..|].
      intros w' Hw' Hne. apply Hz; [by right|done|]. by intros ->.
    + rewrite Hz; [|by left|by intros ->..]. apply IH; [done..|].
      intros; apply Hz; [by right|done..].
Qed.

Lemma NoDup_fmap_eq {A B} (f : A → B) (l : list A) u v :
  NoDup (f <$> l) → u ∈ l → v ∈ l → f u = f v → u = v.
Proof.
  induction l as [|w l IH]; intros Hnd Hu Hv Hf.
  - by apply elem_of_nil in Hu.
  - rewrite fmap_cons in Hnd. apply NoDup_cons in Hnd as [Hw Hnd].
    apply elem_of_cons in Hu as [->|Hu]; apply elem_of_cons in Hv as [->|Hv].
    + done.
    + exfalso. apply Hw. rewrite Hf. by apply list_elem_of_fmap_2.
    + exfalso. apply Hw. rewrite <- Hf. by apply list_elem_of_fmap_2.
    + by apply IH.
Qed.

Section quantities.
Context (cookbook : Cookbook).
Implicit Types (self : Recipe → outcome (option Table)).
Implicit Types (items : list RequiredItem) (t : Table) (x : string).

(** The loop adds to the entry of [x], for every required item in turn,
    what [item_contribution] says. *)
Lemma resolveItems_contributions self items t0 t x :
  self_ok cookbook self →
  resolveItems self cookbook items t0 = Return (Some t) →
  map_get x t
  = accumulate (map_get x t0) (contributions self cookbook x items).
Proof.
  intros Hself. revert t0.
  induction items as [|it items IH]; intros t0; csimpl.
  - by intros [= <-].
  - unfold contributions. csimpl. unfold item_contribution at 1.
    destruct (ingredients cookbook !! item_name it) as [i|] eqn:Hi.
    + intros ->%IH. rewrite map_get_add.
      rewrite (decide_ext (x = item_name it) (item_name it = x)) by done.
      destruct (decide (item_name it = x)) as [->|]; done.
    + destruct (recipes cookbook !! item_name it) as [r|]; [|done].
      destruct (self r) as [| |[inner|]] eqn:Hr; try done.
      intros ->%IH. rewrite map_get_addInner by by apply (Hself _ _ Hr).
      by destruct (map_get x inner).
Qed.

(** A successful loop resolved every item that is not an ingredient. *)
Lemma resolveItems_inner self items t0 t it :
  resolveItems self cookbook items t0 = Return (Some t) →
  it ∈ items → cookbook.(ingredients) !! item_name it = None →
  ∃ r inner, cookbook.(recipes) !! item_name it = Some r
             ∧ self r = Return (Some inner).
Proof.
  revert t0. induction items as [|it' items IH]; intros t0 Hres Hin Hi.
  - by apply elem_of_nil in Hin.
  - simpl in Hres. apply elem_of_cons in Hin as [<-|Hin].
    + rewrite Hi in Hres.
      destruct (recipes cookbook !! item_name it) as [r|]; [|done].
      destruct (self r) as [| |[inner|]] eqn:Hr; try done. eauto.
    + destruct (ingredients cookbook !! item_name it'); [by eapply IH|].
      destruct (recipes cookbook !! item_name it') as [r|]; [|done].
      destruct (self r) as [| |[inner|]]; try done. by eapply IH.
Qed.

Lemma getRecipeIngredients_det n m r v w :
  getRecipeIngredients n cookbook r = Return v →
  getRecipeIngredients m cookbook r = Return w → v = w.
Proof.
  intros Hn Hm.
  apply (getRecipeIngredients_mono cookbook n (n `max` m)) in Hn; [|lia].
  apply (getRecipeIngredients_mono cookbook m (n `max` m)) in Hm; [|lia].
  congruence.
Qed.

End quantities.

(** ** Resolution: splitting the loop *)

Lemma resolveItems_app self cookbook pre post t0 t :
  resolveItems self cookbook (pre ++ post) t0 = Return (Some t) →
  ∃ tpre, resolveItems self cookbook pre t0 = Return (Some tpre)
          ∧ resolveItems self cookbook post tpre = Return (Some t).
Proof.
  revert t0. induction pre as [|it pre IH]; intros t0; simpl.
  - eauto.
  - destruct (ingredients cookbook !! item_name it); [apply IH|].
    destruct (recipes cookbook !! item_name it) as [r|]; [|done].
    destruct (self r) as [| |[inner|]]; try done. apply IH.
Qed.

Lemma addInner_scale m inner table :
  addInner m inner table = add_table (scale_table m inner) table.
Proof.
  revert table. induction inner as [|[k v] inner IH]; intros table; [done|].
  rewrite addInner_cons, IH. done.
Qed.

Lemma scale_table_keys m inner : (scale_table m inner).*1 = inner.*1.
Proof.
  unfold scale_table. rewrite <- list_fmap_compose. done.
Qed.

Lemma map_get_scale m inner x :
  map_get x (scale_table m inner) = (λ q, q * m) <$> map_get x inner.
Proof.
  induction inner as [|[k v] inner IH]; [done|]. csimpl.
  case_decide; [done | apply IH].
Qed.

Lemma add_fresh k q (t : Table) :
  k ∉ t.*1 → addToMapEntry k q t = t ++ [(k, 0 + q)].
Proof.
  intros Hk. unfold addToMapEntry. apply map_get_None in Hk as Hget.
  rewrite Hget. simpl.
  induction t as [|[k' v'] t IH]; [done|].
  csimpl in *. apply not_elem_of_cons in Hk as [? ?].
  rewrite decide_False by done. rewrite IH; [done..|].
  by apply map_get_None.
Qed.

(** Adding entries with new, pairwise different keys appends them, each
    added to [0]. *)
Lemma add_table_fresh entries table :
  NoDup (table.*1 ++ entries.*1) →
  add_table entries table
  = table ++ ((λ kv, (kv.1, 0 + kv.2)) <$> entries).
Proof.
  revert table. induction entries as [|[k v] entries IH]; intros table Hnd.
  - simpl. by rewrite app_nil_r.
  - csimpl in *. unfold add_table in *. simpl.
    assert (k ∉ table.*1) as Hk.
    { apply NoDup_app in Hnd as (_ & Hd & _). intros Hin.
      apply (Hd _ Hin). left. }
    rewrite add_fresh by done.
    rewrite IH; [by rewrite <- app_assoc|].
    rewrite fmap_app. csimpl. by rewrite <- app_assoc.
Qed.

(** ** Resolution: termination and failure *)

Section termination.
Context (cookbook : Cookbook).
Implicit Types (self : Recipe → outcome (option Table)).
Implicit Types (items : list RequiredItem) (t : Table).

(** The loop returns as soon as the recursive calls it makes return. *)
Lemma resolveItems_returns self items t0 :
  (∀ it r, it ∈ items →
     cookbook.(ingredients) !! item_name it = None →
     cookbook.(recipes) !! item_name it = Some r →
     ∃ v, self r = Return v) →
  ∃ v, resolveItems self cookbook items t0 = Return v.
Proof.
  revert t0. induction items as [|it items IH]; intros t0 Hself; simpl.
  - eauto.
  - assert (∀ t1, ∃ v, resolveItems self cookbook items t1 = Return v) as Hrest.
    { intros t1. apply IH. intros it' r Hin. apply Hself. by right. }
    destruct (ingredients cookbook !! item_name it) eqn:Hi; [apply Hrest|].
    destruct (recipes cookbook !! item_name it) as [r|] eqn:Hr; [|eauto].
    destruct (Hself it r) as [[inner|] ->]; [left|done|done| |]; eauto.
Qed.

(** One budget serves all the sub-recipes of a list of items. *)
Lemma common_budget items :
  (∀ it r, it ∈ items →
     cookbook.(ingredients) !! item_name it = None →
     cookbook.(recipes) !! item_name it = Some r →
     ∃ n v, getRecipeIngredients n cookbook r = Return v) →
  ∃ n, ∀ it r, it ∈ items →
     cookbook.(ingredients) !! item_name it = None →
     cookbook.(recipes) !! item_name it = Some r →
     ∃ v, getRecipeIngredients n cookbook r = Return v.
Proof.
  induction items as [|it items IH]; intros Hsub.
  - exists 0%nat. intros it r Hin. by apply elem_of_nil in Hin.
  - destruct IH as [n Hn].
    { intros it' r Hin. apply Hsub. by right. }
    destruct (cookbook.(ingredients) !! item_name it) eqn:Hi.
    { exists n. intros it' r [->|Hin]%elem_of_cons; [congruence | by apply Hn]. }
    destruct (cookbook.(recipes) !! item_name it) as [r0|] eqn:Hr.
    2:{ exists n. intros it' r [->|Hin]%elem_of_cons; [congruence | by apply Hn]. }
    destruct (Hsub it r0) as (n0 & v0 & Hv0); [left|done..|].
    exists (n `max` n0)%nat. intros it' r [->|Hin]%elem_of_cons Hi' Hr'.
    + assert (r = r0) as -> by congruence. exists v0.
      eapply getRecipeIngredients_mono; [|done]. lia.
    + destruct (Hn it' r) as [v Hv]; [done..|]. exists v.
      eapply getRecipeIngredients_mono; [|done]. lia.
Qed.

(** On a well-founded tree the resolver returns. *)
Lemma getRecipeIngredients_returns r :
  acyclic cookbook r →
  ∃ n v, getRecipeIngredients n cookbook r = Return v.
Proof.
  induction 1 as [r _ IH].
  destruct (common_budget (requiredItems r) IH) as [n Hn].
  exists (S n). simpl. by apply resolveItems_returns.
Qed.

(** A tree that mentions an unknown name cannot resolve to a table. *)
Lemma mentions_unknown_fails r n fuel t :
  mentions cookbook r n →
  cookbook.(ingredients) !! n = None →
  cookbook.(recipes) !! n = None →
  getRecipeIngredients fuel cookbook r ≠ Return (Some t).
Proof.
  intros Hm Hi Hr. revert fuel t.
  induction Hm as [r it Hin|r it r' n Hin Hit Hr' Hm IH]; intros fuel t Hres.
  - destruct fuel as [|fuel]; [done|]. simpl in Hres.
    destruct (resolveItems_inner _ _ _ _ _ _ Hres Hin Hi) as (? & ? & ? & _).
    congruence.
  - destruct fuel as [|fuel]; [done|]. simpl in Hres.
    destruct (resolveItems_inner _ _ _ _ _ _ Hres Hin Hit)
      as (r0 & inner & Hr0 & Hinner).
    assert (r0 = r') as -> by congruence. by eapply IH.
Qed.

End termination.

(** ** Registration *)

Lemma js_set_size_le (l : list string) : (js_set_size l ≤ length l)%nat.
Proof.
  unfold js_set_size. induction l as [|x l IH].
  - by rewrite list_to_set_nil, size_empty.
  - rewrite list_to_set_cons, size_union_alt, length_cons.
    rewrite size_singleton.
    assert (size (list_to_set l ∖ ({[x]} : gset string))
            ≤ size (list_to_set l : gset string))%nat
      by (apply subseteq_size; set_solver).
    lia.
Qed.

(** [new Set(names).size === names.length] exactly when no name repeats. *)
Lemma js_set_size_NoDup (l : list string) : js_set_size l = length l ↔ NoDup l.
Proof.
  split; [|apply size_list_to_set].
  induction l as [|x l IH]; [constructor|].
  unfold js_set_size in *. rewrite list_to_set_cons, length_cons.
  intros Hsize.
  destruct (decide (x ∈ l)) as [Hin|Hin].
  - exfalso.
    assert ({[x]} ∪ list_to_set l = (list_to_set l : gset string)) as Heq
      by set_solver.
    rewrite Heq in Hsize. pose proof (js_set_size_le l) as Hle.
    unfold js_set_size in Hle. lia.
  - rewrite size_union in Hsize by set_solver.
    rewrite size_singleton in Hsize.
    apply NoDup_cons. split; [done|]. apply IH. lia.
Qed.

Lemma map_has_true {V} (m : gmap string V) k :
  map_has m k = true ↔ is_Some (m !! k).
Proof. unfold map_has. by rewrite bool_decide_eq_true. Qed.

Lemma map_has_false {V} (m : gmap string V) k :
  map_has m k = false ↔ m !! k = None.
Proof.
  unfold map_has. rewrite bool_decide_eq_false. by rewrite eq_None_not_Some.
Qed.

(** The three ways the handler answers a well-formed entry. *)
Lemma post_entry_duplicate_name cookbook e :
  is_Some (cookbook.(ingredients) !! entry_name e)
  ∨ is_Some (cookbook.(recipes) !! entry_name e) →
  post_entry cookbook (ParseSuccess e)
  = (cookbook,
     mkResponse 400
       (Text "An existing entry with the same name already exist.")).
Proof.
  intros H. simpl.
  assert (map_has (ingredients cookbook) (entry_name e)
          || map_has (recipes cookbook) (entry_name e) = true) as ->; [|done].
  apply orb_true_iff. rewrite !map_has_true. done.
Qed.

Lemma post_entry_fresh cookbook e :
  cookbook.(ingredients) !! entry_name e = None →
  cookbook.(recipes) !! entry_name e = None →
  post_entry cookbook (ParseSuccess e)
  = match e with
    | EntryRecipe r =>
        if decide (NoDup (item_name <$> requiredItems r)) then
          (mkCookbook (<[recipe_name r := r]> cookbook.(recipes))
             cookbook.(ingredients),
           mkResponse 200 (Text "Cookbook Entry successfully added!"))
        else
          (cookbook,
           mkResponse 400
             (Text "Required items cannot have multiple elements with the same name."))
    | EntryIngredient i =>
        (mkCookbook cookbook.(recipes)
           (<[ingredient_name i := i]> cookbook.(ingredients)),
         mkResponse 200 (Text "Cookbook Entry successfully added!"))
    end.
Proof.
  intros Hi%map_has_false Hr%map_has_false. simpl. rewrite Hi, Hr. simpl.
  destruct e as [r|i]; [|done].
  destruct (decide (NoDup (item_name <$> requiredItems r))) as [Hnd|Hnd].
  - apply js_set_size_NoDup in Hnd. rewrite Hnd, Nat.eqb_refl. done.
  - destruct (Nat.eqb_spec (js_set_size (item_name <$> requiredItems r))
                (length (item_name <$> requiredItems r))) as [Heq|Hne];
      [|done].
    by apply js_set_size_NoDup in Heq.
Qed.

Lemma post_entry_cases cookbook req :
  (post_entry cookbook req).1 = cookbook
  ∧ status (post_entry cookbook req).2 = 400%nat
  ∨ ∃ e, req = ParseSuccess e
         ∧ cookbook.(ingredients) !! entry_name e = None
         ∧ cookbook.(recipes) !! entry_name e = None
         ∧ status (post_entry cookbook req).2 = 200%nat
         ∧ match e with
           | EntryRecipe r =>
               NoDup (item_name <$> requiredItems r)
               ∧ (post_entry cookbook req).1
                 = mkCookbook (<[recipe_name r := r]> cookbook.(recipes))
                     cookbook.(ingredients)
           | EntryIngredient i =>
               (post_entry cookbook req).1
               = mkCookbook cookbook.(recipes)
                   (<[ingredient_name i := i]> cookbook.(ingredients))
           end.
Proof.
  destruct req as [msg|e]; [by left|].
  destruct (cookbook.(ingredients) !! entry_name e) eqn:Hi.
  { left. rewrite post_entry_duplicate_name; [done|]. left. by rewrite Hi. }
  destruct (cookbook.(recipes) !! entry_name e) eqn:Hr.
  { left. rewrite post_entry_duplicate_name; [done|]. right. by rewrite Hr. }
  rewrite (post_entry_fresh _ _ Hi Hr). destruct e as [r|i].
  - case_decide; [right|by left]. exists (EntryRecipe r). done.
  - right. exists (EntryIngredient i). done.
Qed.

Lemma post_entries_cons cookbook req reqs :
  post_entries cookbook (req :: reqs)
  = post_entries (post_entry cookbook req).1 reqs.
Proof. done. Qed.

Lemma post_entry_disjoint cookbook req :
  catalog_disjoint cookbook → catalog_disjoint (post_entry cookbook req).1.
Proof.
  intros Hd.
  destruct (post_entry_cases cookbook req)
    as [[-> _]|(e & -> & Hi & Hr & _ & He)]; [done|].
  destruct e as [r|i]; [destruct He as [_ ->]|rewrite He];
    intros n [Hn1 Hn2]; simpl in *.
  - destruct (decide (recipe_name r = n)) as [<-|Hne].
    + rewrite Hi in Hn1. by destruct Hn1.
    + rewrite lookup_insert_ne in Hn2 by done. by apply (Hd n).
  - destruct (decide (ingredient_name i = n)) as [<-|Hne].
    + rewrite Hr in Hn2. by destruct Hn2.
    + rewrite lookup_insert_ne in Hn1 by done. by apply (Hd n).
Qed.

(** A registered name stays registered. *)
Lemma post_entry_keeps cookbook req n :
  (post_entry cookbook req).1.(ingredients) !! n = None →
  (post_entry cookbook req).1.(recipes) !! n = None →
  cookbook.(ingredients) !! n = None ∧ cookbook.(recipes) !! n = None.
Proof.
  destruct (post_entry_cases cookbook req)
    as [[-> _]|(e & -> & Hi & Hr & _ & He)]; [done|].
  destruct e as [r|i]; [destruct He as [_ ->]|rewrite He]; simpl.
  - intros ? [? _]%lookup_insert_None. done.
  - intros [? _]%lookup_insert_None ?. done.
Qed.

Lemma registered_names_fresh cookbook reqs :
  NoDup (registered_names cookbook reqs)
  ∧ ∀ n, n ∈ registered_names cookbook reqs →
         cookbook.(ingredients) !! n = None ∧ cookbook.(recipes) !! n = None.
Proof.
  revert cookbook. induction reqs as [|req reqs IH]; intros cookbook.
  - split; [constructor|]. intros n Hn. by apply elem_of_nil in Hn.
  - destruct (IH (post_entry cookbook req).1) as [Hnd Hfresh].
    cbn [registered_names].
    destruct (post_entry_cases cookbook req)
      as [[Hsame H400]|(e & -> & Hi & Hr & H200 & He)].
    + assert (match req with
              | ParseSuccess e =>
                  if (status (post_entry cookbook req).2 =? 200)%nat
                  then [entry_name e] else []
              | ParseFailure _ => []
              end = []) as ->.
      { destruct req; [done|]. by rewrite H400. }
      simpl. split; [done|]. intros n Hn. rewrite <- Hsame at 1 2. auto.
    + rewrite H200. simpl. split.
      * apply NoDup_cons. split; [|done]. intros [Hn1 Hn2]%Hfresh.
        destruct e as [r|i]; [destruct He as [_ He]|]; rewrite He in *;
          simpl in *.
        -- by rewrite lookup_insert_eq in Hn2.
        -- by rewrite lookup_insert_eq in Hn1.
      * intros n [->|Hn]%elem_of_cons; [done|].
        apply Hfresh in Hn as [Hn1 Hn2]. by eapply post_entry_keeps.
Qed.

Lemma post_entries_disjoint cookbook reqs :
  catalog_disjoint cookbook → catalog_disjoint (post_entries cookbook reqs).
Proof.
  revert cookbook. induction reqs as [|req reqs IH]; intros cookbook Hd.
  - done.
  - rewrite post_entries_cons. by apply IH, post_entry_disjoint.
Qed.

(** ** Facts of binary64 arithmetic *)

Lemma float_mul_comm (x y : float) : x * y = y * x.
Proof.
  apply Prim2SF_inj. rewrite !FloatAxioms.mul_spec. unfold SF64mul, SFmul.
  destruct (Prim2SF x) as [sx|sx| |sx mx ex], (Prim2SF y) as [sy|sy| |sy my ey];
    try reflexivity; try (f_equal; apply xorb_comm).
  by rewrite (xorb_comm sx sy), (Pos.mul_comm mx my), (Z.add_comm ex ey).
Qed.

Lemma float_add_comm (x y : float) : x + y = y + x.
Proof.
  apply Prim2SF_inj. rewrite !FloatAxioms.add_spec. unfold SF64add, SFadd.
  destruct (Prim2SF x) as [sx|sx| |sx mx ex], (Prim2SF y) as [sy|sy| |sy my ey];
    try reflexivity; try (by destruct sx, sy).
  by rewrite (Z.min_comm ex ey), Z.add_comm.
Qed.

Lemma Prim2SF_zero : Prim2SF 0 = S754_zero false.
Proof. reflexivity. Qed.

(** [0 + x] is [x], except that [0 + -0] is [0]. *)
Lemma float_add_zero_l (x : float) :
  Prim2SF (0 + x)
  = match Prim2SF x with
    | S754_zero _ => S754_zero false
    | sx => sx
    end.
Proof.
  rewrite FloatAxioms.add_spec, Prim2SF_zero. unfold SF64add, SFadd.
  by destruct (Prim2SF x) as [[]|[]| |].
Qed.

Lemma same_number_zeros (x y : float) sx sy :
  Prim2SF x = S754_zero sx → Prim2SF y = S754_zero sy → same_number x y.
Proof.
  intros Hx Hy. right. rewrite FloatAxioms.eqb_spec, Hx, Hy. done.
Qed.

(** Starting a sum at [0] does not change its value. *)
Lemma same_number_add_zero (x k : float) : same_number (0 + x + k) (x + k).
Proof.
  destruct (Prim2SF x) as [sx|sx| |sx mx ex] eqn:Hx.
  2-4: left; assert (0 + x = x) as ->;
    [apply Prim2SF_inj; by rewrite float_add_zero_l, Hx|done].
  pose proof (float_add_zero_l x) as H0. rewrite Hx in H0.
  destruct (Prim2SF k) as [sk|sk| |sk mk ek] eqn:Hk.
  - apply (same_number_zeros _ _ (if sk then false else false)
                                (if sx then (if sk then true else false)
                                 else false)).
    + rewrite FloatAxioms.add_spec, H0, Hk. by destruct sk.
    + rewrite FloatAxioms.add_spec, Hx, Hk. by destruct sx, sk.
  - left. apply Prim2SF_inj.
    rewrite FloatAxioms.add_spec, H0, FloatAxioms.add_spec, Hx, Hk. done.
  - left. apply Prim2SF_inj.
    rewrite FloatAxioms.add_spec, H0, FloatAxioms.add_spec, Hx, Hk. done.
  - left. apply Prim2SF_inj.
    rewrite FloatAxioms.add_spec, H0, FloatAxioms.add_spec, Hx, Hk. done.
Qed.

Section sign.
Context (p e : Z).

Lemma binary_round_aux_sign mx ex lx :
  SFnot_negative (binary_round_aux p e false mx ex lx) = true.
Proof.
  unfold binary_round_aux.
  destruct (shr_fexp p e mx ex lx) as [mrs e'].
  destruct (shr_fexp p e _ e' loc_Exact) as [mrs'' e''].
  destruct (shr_m mrs''); [done| |done]. by destruct (Z.leb _ _).
Qed.

Lemma binary_round_sign m ex :
  SFnot_negative (binary_round p e false m ex) = true.
Proof.
  unfold binary_round. destruct (shl_align _ _ _) as [mz ez].
  apply binary_round_aux_sign.
Qed.

Lemma SFadd_sign x y :
  SFnot_negative x = true → SFnot_negative y = true →
  SFnot_negative (SFadd p e x y) = true.
Proof.
  destruct x as [sx|sx| |sx mx ex], y as [sy|sy| |sy my ey];
    try done; try (by destruct sx, sy).
  destruct sx, sy; try done. intros _ _.
  unfold SFadd, cond_Zopp, binary_normalize.
  change (Z.add (Zpos ?a) (Zpos ?b)) with (Zpos (a + b)).
  apply binary_round_sign.
Qed.

Lemma SFmul_sign x y :
  SFnot_negative x = true → SFnot_negative y = true →
  SFnot_negative (SFmul p e x y) = true.
Proof.
  destruct x as [sx|sx| |sx mx ex], y as [sy|sy| |sy my ey];
    try done; try (by destruct sx, sy).
  destruct sx, sy; try done. intros _ _.
  apply binary_round_aux_sign.
Qed.

End sign.

Lemma not_negative_SF (x : float) :
  not_negative x ↔ SFnot_negative (Prim2SF x) = true.
Proof.
  unfold not_negative. rewrite FloatAxioms.ltb_spec, Prim2SF_zero.
  by destruct (Prim2SF x) as [[]|[]| |[]].
Qed.

Lemma not_negative_zero : not_negative 0.
Proof. reflexivity. Qed.

Lemma not_negative_add (x y : float) :
  not_negative x → not_negative y → not_negative (x + y).
Proof.
  rewrite !not_negative_SF, FloatAxioms.add_spec. apply SFadd_sign.
Qed.

Lemma not_negative_mul (x y : float) :
  not_negative x → not_negative y → not_negative (x * y).
Proof.
  rewrite !not_negative_SF, FloatAxioms.mul_spec. apply SFmul_sign.
Qed.

(** A number that passes [>= 0] is not negative. *)
Lemma gte_zero_not_negative (x : float) :
  (0 <=? x) = true → not_negative x.
Proof.
  rewrite not_negative_SF, FloatAxioms.leb_spec, Prim2SF_zero.
  by destruct (Prim2SF x) as [[]|[]| |[]].
Qed.

(** The value of a float constant, by computation. *)
Ltac rational_value :=
  unfold rational_of;
  lazymatch goal with
  | |- context [Prim2SF ?x] =>
      let v := eval vm_compute in (Prim2SF x) in
      replace (Prim2SF x) with v by (vm_compute; reflexivity)
  end;
  cbv iota beta; f_equal; apply Qc_is_canon; vm_compute; reflexivity.

Ltac rational_differs :=
  let H := fresh in intros H; vm_compute in H; discriminate H.

(** ** The summary *)

Lemma summaryLoop_spec cookbook entries s0 :
  (∀ k, k ∈ entries.*1 → is_Some (cookbook.(ingredients) !! k)) →
  summaryLoop cookbook entries s0
  = Return (mkSummary (summary_name s0)
              (fold_left (λ acc kv, acc + cookTime_of cookbook kv.1 * kv.2)
                 entries (summary_cookTime s0))
              (summary_ingredients s0 ++ entries)).
Proof.
  revert s0. induction entries as [|[k q] entries IH]; intros [n c l] Hin.
  - simpl. by rewrite app_nil_r.
  - cbn [summaryLoop].
    destruct (Hin k) as [i Hi]; [left|]. rewrite Hi.
    rewrite IH by (intros; apply Hin; by right). simpl.
    assert (cookTime_of cookbook k = cookTime i) as ->
      by (unfold cookTime_of; by rewrite Hi).
    by rewrite <- app_assoc.
Qed.

Lemma buildSummary_spec cookbook fuel r t :
  getRecipeIngredients fuel cookbook r = Return (Some t) →
  buildSummary fuel cookbook r
  = Return (Some (mkSummary (recipe_name r) (total_cookTime cookbook t) t)).
Proof.
  intros Hres. unfold buildSummary. rewrite Hres.
  pose proof (getRecipeIngredients_ok _ _ _ _ Hres) as [_ Hin].
  by rewrite summaryLoop_spec.
Qed.

(** ** No negative quantity *)

Lemma map_get_not_negative k v (t : Table) :
  table_not_negative t → map_get k t = Some v → not_negative v.
Proof.
  intros Ht Hget%map_get_Some_elem.
  unfold table_not_negative in Ht. rewrite Forall_forall in Ht.
  by apply (Ht (k, v)).
Qed.

Lemma map_set_not_negative k v (t : Table) :
  not_negative v → table_not_negative t →
  table_not_negative (map_set k v t).
Proof.
  intros Hv. induction 1 as [|[k' v'] t Hv' Ht IH]; simpl.
  - by repeat constructor.
  - case_decide; constructor; done.
Qed.

Lemma add_not_negative k q (t : Table) :
  not_negative q → table_not_negative t →
  table_not_negative (addToMapEntry k q t).
Proof.
  intros Hq Ht. apply map_set_not_negative; [|done].
  apply not_negative_add; [|done].
  destruct (map_get k t) as [v|] eqn:Hget; simpl.
  - by eapply map_get_not_negative.
  - apply not_negative_zero.
Qed.

Lemma addInner_not_negative q inner (t : Table) :
  not_negative q → table_not_negative inner → table_not_negative t →
  table_not_negative (addInner q inner t).
Proof.
  intros Hq Hinner. revert t.
  induction Hinner as [|[k v] inner Hv Hinner IH]; intros t Ht; [done|].
  rewrite addInner_cons. apply IH, add_not_negative; [|done].
  by apply not_negative_mul.
Qed.

Lemma resolveItems_not_negative self cookbook items t0 t :
  catalog_nonneg cookbook →
  (∀ n r inner, cookbook.(recipes) !! n = Some r →
     self r = Return (Some inner) → table_not_negative inner) →
  Forall (λ it, (0 <=? quantity it) = true) items →
  table_not_negative t0 →
  resolveItems self cookbook items t0 = Return (Some t) →
  table_not_negative t.
Proof.
  intros Hcat Hself Hitems. revert t0.
  induction Hitems as [|it items Hit Hitems IH]; intros t0 Ht0; simpl.
  - by intros [= <-].
  - apply gte_zero_not_negative in Hit.
    destruct (ingredients cookbook !! item_name it).
    { apply IH. by apply add_not_negative. }
    destruct (recipes cookbook !! item_name it) as [r|] eqn:Hrec; [|done].
    destruct (self r) as [| |[inner|]] eqn:Hr; try done.
    apply IH. apply addInner_not_negative; [done| |done]. by eapply Hself.
Qed.

Lemma getRecipeIngredients_not_negative cookbook fuel r t :
  catalog_nonneg cookbook →
  Forall (λ it, (0 <=? quantity it) = true) (requiredItems r) →
  getRecipeIngredients fuel cookbook r = Return (Some t) →
  table_not_negative t.
Proof.
  intros Hcat. revert r t.
  induction fuel as [|fuel IH]; intros r t Hr; simpl; [done|].
  apply resolveItems_not_negative; [done| |done|constructor].
  intros n r' inner Hn. apply IH. by apply (proj1 Hcat n).
Qed.

Lemma total_cookTime_not_negative cookbook (t : Table) :
  catalog_nonneg cookbook → table_not_negative t →
  not_negative (total_cookTime cookbook t).
Proof.
  intros [_ Hcat] Ht. unfold total_cookTime.
  assert (∀ acc, not_negative acc →
            not_negative
              (fold_left (λ acc kv, acc + cookTime_of cookbook kv.1 * kv.2)
                 t acc)) as Hfold.
  { induction Ht as [|[k q] t Hq Ht IH]; intros acc Hacc; [done|].
    simpl. apply IH. apply not_negative_add; [done|].
    apply not_negative_mul; [|done]. unfold cookTime_of.
    destruct (ingredients cookbook !! k) as [i|] eqn:Hi; simpl.
    - by apply gte_zero_not_negative, (Hcat k).
    - apply not_negative_zero. }
  apply Hfold, not_negative_zero.
Qed.

Lemma post_entry_nonneg cookbook req :
  parsed_ok req → catalog_nonneg cookbook →
  catalog_nonneg (post_entry cookbook req).1.
Proof.
  intros Hok [Hr Hi].
  destruct (post_entry_cases cookbook req)
    as [[-> _]|(e & -> & _ & _ & _ & He)]; [done|].
  destruct e as [r|i]; [destruct He as [_ ->]|rewrite He]; split; simpl;
    try done.
  - intros n r' [[_ <-]|[_ ?]]%lookup_insert_Some; [done | by eapply Hr].
  - intros n i' [[_ <-]|[_ ?]]%lookup_insert_Some; [done | by eapply Hi].
Qed.

Lemma post_entries_nonneg cookbook reqs :
  Forall parsed_ok reqs → catalog_nonneg cookbook →
  catalog_nonneg (post_entries cookbook reqs).
Proof.
  intros Hreqs. revert cookbook.
  induction Hreqs as [|req reqs Hreq Hreqs IH]; intros cookbook Hcat; [done|].
  rewrite post_entries_cons. by apply IH, post_entry_nonneg.
Qed.

(** ** A recipe that requires itself *)

Lemma ouroboros_diverges fuel :
  getRecipeIngredients fuel cyclic_cookbook ouroboros = Diverge.
Proof.
  induction fuel as [|fuel IH]; [done|].
  cbn [getRecipeIngredients requiredItems ouroboros resolveItems item_name].
  assert (cyclic_cookbook.(ingredients) !! "ouroboros"%string = None) as ->
    by (vm_compute; reflexivity).
  assert (cyclic_cookbook.(recipes) !! "ouroboros"%string = Some ouroboros)
    as -> by (vm_compute; reflexivity).
  by rewrite IH.
Qed.

(** ** parse_handwriting *)

Lemma split_ws_cons c s :
  split_ws (c :: s)
  = if is_ws c then
      match s with
      | c' :: _ => if is_ws c' then split_ws s else [] :: split_ws s
      | [] => [] :: split_ws s
      end
    else
      match split_ws s with
      | w :: ws => (c :: w) :: ws
      | [] => [[c]]
      end.
Proof. done. Qed.

Lemma split_ws_ws_head c s :
  is_ws c = true → ∃ rest, split_ws (c :: s) = [] :: rest.
Proof.
  revert c. induction s as [|c' s IH]; intros c Hc.
  - rewrite split_ws_cons, Hc. eauto.
  - rewrite split_ws_cons, Hc. destruct (is_ws c') eqn:Hc'; [|eauto].
    by apply IH.
Qed.

Lemma split_ws_sep c s :
  is_ws c = true →
  split_ws (c :: s) = [] :: split_ws s
  ∨ split_ws (c :: s) = split_ws s ∧ ∃ rest, split_ws s = [] :: rest.
Proof.
  intros Hc. rewrite split_ws_cons, Hc. destruct s as [|c' s]; [by left|].
  destruct (is_ws c') eqn:Hc'; [|by left].
  right. split; [done|]. by apply split_ws_ws_head.
Qed.

Lemma split_ws_not_nil s : split_ws s ≠ [].
Proof.
  induction s as [|c s IH]; [done|].
  rewrite split_ws_cons. destruct (is_ws c).
  - destruct s as [|c' s]; [done|]. by destruct (is_ws c').
  - by destruct (split_ws s).
Qed.

Lemma split_ws_nonsep c s :
  is_ws c = false →
  ∃ w ws, split_ws s = w :: ws ∧ split_ws (c :: s) = (c :: w) :: ws.
Proof.
  intros Hc. rewrite split_ws_cons, Hc.
  pose proof (split_ws_not_nil s).
  destruct (split_ws s) as [|w ws]; [done|]. eauto.
Qed.

Lemma not_sep_dash c : is_sep c = false → dash_to_space c = c.
Proof.
  unfold is_sep, dash_to_space.
  destruct ((c =? 45)%N || (c =? 95)%N); [done|done].
Qed.

Section parse.
Context (keep : N → bool).

#[local] Abbreviation strip := (filter (λ c : N, keep c = true)).
#[local] Abbreviation tokens s := (strip <$> split_ws (dash_to_space <$> s)).

Lemma emit_nil_cons st ws : emit st ([] :: ws) = emit st ws.
Proof. done. Qed.

(** The pass from left to right writes the words of the pipeline. *)
Lemma scan_tokens s started in_word :
  (in_word = true → started = true) →
  ∃ w0 rest, tokens s = w0 :: rest
    ∧ scan keep s started in_word
      = if in_word then (toLowerCase <$> w0) ++ emit true rest
        else emit started (w0 :: rest).
Proof.
  revert started in_word.
  induction s as [|c s IH]; intros started in_word Hinv.
  - exists [], []. split; [done|]. by destruct in_word.
  - cbn [scan]. rewrite fmap_cons. destruct (is_sep c) eqn:Hsep.
    + destruct (IH started false) as (w0 & rest & Htok & Hscan); [done|].
      rewrite Hscan.
      destruct (split_ws_sep (dash_to_space c) (dash_to_space <$> s) Hsep)
        as [->|[-> [rest' Hrest']]].
      * rewrite fmap_cons, Htok. exists [], (w0 :: rest).
        split; [done|]. destruct in_word; [|done].
        by rewrite Hinv.
      * rewrite Htok. rewrite Hrest' in Htok. rewrite fmap_cons in Htok.
        injection Htok as <- <-. eexists _, _. split; [done|].
        destruct in_word; [|done]. by rewrite Hinv.
    + rewrite (not_sep_dash c Hsep).
      assert (is_ws c = false) as Hws
        by (unfold is_sep in Hsep; by rewrite (not_sep_dash c Hsep) in Hsep).
      destruct (split_ws_nonsep c (dash_to_space <$> s) Hws)
        as (w & ws & Hs & ->).
      rewrite fmap_cons. destruct (keep c) eqn:Hkeep.
      * destruct (IH true true) as (w0 & rest & Htok & Hscan); [done|].
        rewrite Hscan. rewrite Hs, fmap_cons in Htok. injection Htok as <- <-.
        rewrite filter_cons_True by done.
        eexists _, _. split; [done|].
        destruct in_word.
        -- by rewrite fmap_cons.
        -- cbn [emit]. unfold titlecase. simpl. rewrite drop_0.
           by rewrite <- !app_assoc.
      * destruct (IH started in_word) as (w0 & rest & Htok & Hscan); [done|].
        rewrite Hscan. rewrite Hs, fmap_cons in Htok. injection Htok as <- <-.
        rewrite filter_cons_False by (by rewrite Hkeep).
        eexists _, _. split; [done|]. done.
Qed.

End parse.

Lemma join_space_cons w (L : list jsstring) :
  join_space (w :: L) = w ++ concat ((λ x, 32%N :: x) <$> L).
Proof.
  revert w. induction L as [|w' L IH]; intros w.
  - simpl. by rewrite app_nil_r.
  - change (join_space (w :: w' :: L)) with (w ++ 32%N :: join_space (w' :: L)).
    by rewrite IH.
Qed.

Lemma emit_true (ws : list jsstring) :
  emit true ws
  = concat ((λ x, 32%N :: x)
              <$> (titlecase <$> filter (λ w, (0 < length w)%nat) ws)).
Proof.
  induction ws as [|w ws IH]; [done|]. destruct w as [|c w].
  - rewrite filter_cons_False by (simpl; lia). done.
  - rewrite filter_cons_True by (simpl; lia). cbn [emit]. by rewrite IH.
Qed.

Lemma emit_false (ws : list jsstring) :
  emit false ws
  = join_space (titlecase <$> filter (λ w, (0 < length w)%nat) ws).
Proof.
  induction ws as [|w ws IH]; [done|]. destruct w as [|c w].
  - rewrite filter_cons_False by (simpl; lia). done.
  - rewrite filter_cons_True by (simpl; lia). cbn [emit].
    rewrite fmap_cons, join_space_cons, emit_true. done.
Qed.

Section parse_null.
Context (keep : N → bool).
Hypothesis keep_not_sep : ∀ c, keep c = true → is_sep c = false.

#[local] Abbreviation strip' := (filter (λ c : N, keep c = true)).

(** No word is left exactly when no character is kept. *)
Lemma tokens_all_empty s :
  Forall (λ w, w = []) (strip' <$> split_ws (dash_to_space <$> s))
  ↔ Forall (λ c, keep c = false) s.
Proof.
  induction s as [|c s IH].
  - split; intros _; [constructor | by repeat constructor].
  - rewrite fmap_cons, Forall_cons, <- IH. destruct (is_sep c) eqn:Hsep.
    + assert (keep c = false) as Hc.
      { destruct (keep c) eqn:Hk; [|done]. apply keep_not_sep in Hk.
        congruence. }
      destruct (split_ws_sep (dash_to_space c) (dash_to_space <$> s) Hsep)
        as [->|[-> _]].
      * rewrite fmap_cons, Forall_cons. naive_solver.
      * naive_solver.
    + rewrite (not_sep_dash c Hsep).
      assert (is_ws c = false) as Hws
        by (unfold is_sep in Hsep; by rewrite (not_sep_dash c Hsep) in Hsep).
      destruct (split_ws_nonsep c (dash_to_space <$> s) Hws)
        as (w & ws & -> & ->).
      rewrite !fmap_cons, !Forall_cons. destruct (keep c) eqn:Hk.
      * rewrite filter_cons_True by done. naive_solver.
      * rewrite filter_cons_False by (by rewrite Hk). naive_solver.
Qed.

Lemma filter_nonempty_nil (ws : list jsstring) :
  filter (λ w, (0 < length w)%nat) ws = [] ↔ Forall (λ w, w = []) ws.
Proof.
  induction ws as [|w ws IH]; [by split; [constructor|]|].
  rewrite Forall_cons, <- IH. destruct w as [|c w].
  - rewrite filter_cons_False by (simpl; lia). naive_solver.
  - rewrite filter_cons_True by (simpl; lia). naive_solver.
Qed.

Lemma existsb_keep_false s :
  existsb keep s = false ↔ Forall (λ c, keep c = false) s.
Proof.
  induction s as [|c s IH]; [by split; [constructor|]|].
  simpl. rewrite Forall_cons, <- IH, orb_false_iff. done.
Qed.

Lemma parse_with_null s :
  parse_with keep s = None ↔ Forall (λ c, keep c = false) s.
Proof.
  rewrite <- tokens_all_empty, <- filter_nonempty_nil. unfold parse_with.
  rewrite length_fmap.
  destruct (filter _ (strip' <$> _)) as [|w ws]; simpl; naive_solver.
Qed.

(** The pipeline of the source and the pass from left to right agree. *)
Lemma parse_with_scan s : parse_with keep s = title_scan keep s.
Proof.
  unfold title_scan. destruct (existsb keep s) eqn:Hex.
  - destruct (parse_with keep s) as [out|] eqn:Hparse.
    + unfold parse_with in Hparse.
      destruct (length _ =? 0)%nat; [done|]. injection Hparse as <-.
      destruct (scan_tokens keep s false false) as (w0 & rest & Htok & ->);
        [done|].
      by rewrite Htok, emit_false.
    + apply parse_with_null, existsb_keep_false in Hparse. congruence.
  - by apply parse_with_null, existsb_keep_false.
Qed.

End parse_null.

Lemma is_alnum_range c :
  is_alnum c = true →
  (48 ≤ c ≤ 57 ∨ 65 ≤ c ≤ 90 ∨ 97 ≤ c ≤ 122)%N.
Proof.
  unfold is_alnum, is_alpha, is_digit.
  rewrite !orb_true_iff, !andb_true_iff, !N.leb_le. tauto.
Qed.

Ltac decide_cmp :=
  repeat match goal with
    | |- context [(?a <=? ?b)%N] =>
        first [ replace (a <=? b)%N with true
                  by (symmetry; apply N.leb_le; lia)
              | replace (a <=? b)%N with false
                  by (symmetry; apply N.leb_gt; lia) ]
    | |- context [(?a =? ?b)%N] =>
        first [ replace (a =? b)%N with false
                  by (symmetry; apply N.eqb_neq; lia)
              | replace (a =? b)%N with true
                  by (symmetry; apply N.eqb_eq; lia) ]
    end.

Lemma is_alnum_not_sep c : is_alnum c = true → is_sep c = false.
Proof.
  intros Hr%is_alnum_range. unfold is_sep, dash_to_space.
  decide_cmp. simpl. unfold is_ws. decide_cmp. done.
Qed.

Lemma is_alpha_not_sep c : is_alpha c = true → is_sep c = false.
Proof.
  intros H. apply is_alnum_not_sep. unfold is_alnum. by rewrite H.
Qed.

(** ** Character classes *)

Lemma is_alpha_range c :
  is_alpha c = true ↔ (65 ≤ c ≤ 90 ∨ 97 ≤ c ≤ 122)%N.
Proof.
  unfold is_alpha.
  rewrite !orb_true_iff, !andb_true_iff, !N.leb_le. tauto.
Qed.

Lemma is_digit_range c : is_digit c = true ↔ (48 ≤ c ≤ 57)%N.
Proof. unfold is_digit. by rewrite andb_true_iff, !N.leb_le. Qed.

Lemma is_upper_range c : is_upper c = true ↔ (65 ≤ c ≤ 90)%N.
Proof. unfold is_upper. by rewrite andb_true_iff, !N.leb_le. Qed.

Lemma is_lower_range c : is_lower c = true ↔ (97 ≤ c ≤ 122)%N.
Proof. unfold is_lower. by rewrite andb_true_iff, !N.leb_le. Qed.

Lemma toUpperCase_cases c :
  ((97 ≤ c ≤ 122)%N ∧ toUpperCase c = (c - 32)%N)
  ∨ (¬ (97 ≤ c ≤ 122)%N ∧ toUpperCase c = c).
Proof.
  unfold toUpperCase.
  destruct (N.leb_spec 97 c), (N.leb_spec c 122); simpl; [left|right..]; lia.
Qed.

Lemma toLowerCase_cases c :
  ((65 ≤ c ≤ 90)%N ∧ toLowerCase c = (c + 32)%N)
  ∨ (¬ (65 ≤ c ≤ 90)%N ∧ toLowerCase c = c).
Proof.
  unfold toLowerCase.
  destruct (N.leb_spec 65 c), (N.leb_spec c 90); simpl; [left|right..]; lia.
Qed.

Lemma is_alpha_upper c : is_alpha c = true → is_upper (toUpperCase c) = true.
Proof.
  rewrite is_alpha_range, is_upper_range.
  destruct (toUpperCase_cases c) as [[? ->]|[? ->]]; lia.
Qed.

Lemma is_alpha_lower c : is_alpha c = true → is_lower (toLowerCase c) = true.
Proof.
  rewrite is_alpha_range, is_lower_range.
  destruct (toLowerCase_cases c) as [[? ->]|[? ->]]; lia.
Qed.

Lemma is_digit_toUpperCase c : is_digit c = true → toUpperCase c = c.
Proof.
  rewrite is_digit_range.
  destruct (toUpperCase_cases c) as [[? ->]|[? ->]]; lia.
Qed.

Lemma is_digit_toLowerCase c : is_digit c = true → toLowerCase c = c.
Proof.
  rewrite is_digit_range.
  destruct (toLowerCase_cases c) as [[? ->]|[? ->]]; lia.
Qed.

Lemma is_upper_fixed c : is_upper c = true → toUpperCase c = c.
Proof.
  rewrite is_upper_range.
  destruct (toUpperCase_cases c) as [[? ->]|[? ->]]; lia.
Qed.

Lemma is_lower_fixed c : is_lower c = true → toLowerCase c = c.
Proof.
  rewrite is_lower_range.
  destruct (toLowerCase_cases c) as [[? ->]|[? ->]]; lia.
Qed.

Lemma is_upper_alpha c : is_upper c = true → is_alpha c = true.
Proof. rewrite is_upper_range, is_alpha_range. lia. Qed.

Lemma is_lower_alpha c : is_lower c = true → is_alpha c = true.
Proof. rewrite is_lower_range, is_alpha_range. lia. Qed.

Lemma toLowerCase_toUpperCase c : toLowerCase (toUpperCase c) = toLowerCase c.
Proof.
  destruct (toUpperCase_cases c) as [[? ->]|[? ->]]; [|done].
  destruct (toLowerCase_cases c) as [[? ->]|[? ->]]; [lia|].
  destruct (toLowerCase_cases (c - 32)) as [[? ->]|[? ->]]; lia.
Qed.

Lemma toLowerCase_idemp c : toLowerCase (toLowerCase c) = toLowerCase c.
Proof.
  destruct (toLowerCase_cases c) as [[? ->]|[? Heq]]; [|by rewrite !Heq].
  destruct (toLowerCase_cases (c + 32)) as [[? ->]|[? ->]]; lia.
Qed.

Lemma toUpperCase_toLowerCase c : toUpperCase (toLowerCase c) = toUpperCase c.
Proof.
  destruct (toLowerCase_cases c) as [[? ->]|[? ->]]; [|done].
  destruct (toUpperCase_cases c) as [[? ->]|[? ->]]; [lia|].
  destruct (toUpperCase_cases (c + 32)) as [[? ->]|[? ->]]; lia.
Qed.

Lemma is_alpha_toLowerCase c : is_alpha (toLowerCase c) = is_alpha c.
Proof.
  apply eq_true_iff_eq. rewrite !is_alpha_range.
  destruct (toLowerCase_cases c) as [[? ->]|[? ->]]; lia.
Qed.

Lemma is_digit_of_toLowerCase c : is_digit (toLowerCase c) = is_digit c.
Proof.
  apply eq_true_iff_eq. rewrite !is_digit_range.
  destruct (toLowerCase_cases c) as [[? ->]|[? ->]]; lia.
Qed.

Lemma is_alnum_toLowerCase c : is_alnum (toLowerCase c) = is_alnum c.
Proof.
  unfold is_alnum. by rewrite is_alpha_toLowerCase, is_digit_of_toLowerCase.
Qed.

Lemma is_sep_space : is_sep 32 = true.
Proof. done. Qed.

Lemma is_sep_cases c :
  is_sep c = true ↔ (c = 45 ∨ c = 95)%N ∨ is_ws c = true.
Proof.
  unfold is_sep, dash_to_space.
  destruct (N.eqb_spec c 45) as [->|?]; [naive_solver|].
  destruct (N.eqb_spec c 95) as [->|?]; [naive_solver|].
  simpl. naive_solver.
Qed.

Lemma is_ws_range c :
  is_ws c = true →
  (9 ≤ c ≤ 13 ∨ c = 32 ∨ 160 ≤ c)%N.
Proof.
  unfold is_ws.
  rewrite !orb_true_iff, !andb_true_iff, !N.leb_le, !N.eqb_eq. lia.
Qed.

Lemma is_sep_toLowerCase c : is_sep (toLowerCase c) = is_sep c.
Proof.
  destruct (toLowerCase_cases c) as [[Hc ->]|[? ->]]; [|done].
  assert (is_alnum c = true) as H1.
  { unfold is_alnum. apply orb_true_iff. left. apply is_alpha_range. lia. }
  assert (is_alnum (c + 32) = true) as H2.
  { unfold is_alnum. apply orb_true_iff. left. apply is_alpha_range. lia. }
  by rewrite (is_alnum_not_sep _ H1), (is_alnum_not_sep _ H2).
Qed.

(** ** parse_handwriting: the shape of the result *)

Lemma titlecase_cons c w :
  titlecase (c :: w) = toUpperCase c :: (toLowerCase <$> w).
Proof. unfold titlecase. simpl. by rewrite drop_0. Qed.

Lemma fmap_fixed {A} (f : A → A) (l : list A) :
  Forall (λ x, f x = x) l → f <$> l = l.
Proof. induction 1 as [|x l Hx _ IH]; csimpl; congruence. Qed.

Lemma filter_all {A} (P : A → Prop) `{!∀ x, Decision (P x)} (l : list A) :
  Forall P l → filter P l = l.
Proof.
  induction 1 as [|x l Hx _ IH]; [done|].
  by rewrite filter_cons_True, IH.
Qed.

Lemma join_space_two w w' (ws : list jsstring) :
  join_space (w :: w' :: ws) = w ++ 32%N :: join_space (w' :: ws).
Proof. done. Qed.

Lemma Forall_join_space (P : N → Prop) (words : list jsstring) :
  P 32%N → Forall (Forall P) words → Forall P (join_space words).
Proof.
  intros H32. induction 1 as [|w ws Hw Hws IH]; [constructor|].
  destruct ws as [|w' ws]; [done|].
  rewrite join_space_two. apply Forall_app. split; [done|].
  by constructor.
Qed.

Lemma split_ws_word w :
  Forall (λ c, is_ws c = false) w → split_ws w = [w].
Proof.
  induction 1 as [|c w Hc _ IH]; [done|].
  by rewrite split_ws_cons, Hc, IH.
Qed.

Lemma split_ws_app_word w l :
  Forall (λ c, is_ws c = false) w →
  split_ws (w ++ l)
  = match split_ws l with
    | t :: ts => (w ++ t) :: ts
    | [] => [w]
    end.
Proof.
  pose proof (split_ws_not_nil l) as Hl.
  induction 1 as [|c w Hc _ IH]; simpl app.
  - by destruct (split_ws l).
  - rewrite split_ws_cons, Hc, IH. by destruct (split_ws l).
Qed.

Lemma split_ws_join (words : list jsstring) :
  words ≠ [] →
  Forall (λ w, w ≠ [] ∧ Forall (λ c, is_ws c = false) w) words →
  split_ws (join_space words) = words.
Proof.
  intros Hne Hwords. induction Hwords as [|w ws [Hw Hnows] Hws IH]; [done|].
  destruct ws as [|w' ws]; [by apply split_ws_word|].
  rewrite join_space_two, split_ws_app_word by done.
  apply Forall_cons in Hws as Hw'. destruct Hw' as [[Hw' Hnows'] _].
  assert (∃ c rest, join_space (w' :: ws) = c :: rest ∧ is_ws c = false)
    as (c & rest & Hjoin & Hc).
  { destruct w' as [|c w']; [done|]. apply Forall_cons in Hnows' as [? _].
    destruct ws; simpl; eauto. }
  rewrite split_ws_cons. change (is_ws 32) with true. cbv iota.
  rewrite Hjoin, Hc, <- Hjoin, IH by done. by rewrite app_nil_r.
Qed.

Section parse_shape.
Context (keep first others : N → bool).

Lemma parse_with_words s out :
  parse_with keep s = Some out →
  ∃ W : list jsstring,
    W ≠ [] ∧ out = join_space (titlecase <$> W)
    ∧ Forall (λ w, w ≠ [] ∧ Forall (λ c, keep c = true) w) W.
Proof.
  unfold parse_with. rewrite length_fmap.
  set (W := filter _ _). intros Hout. exists W.
  destruct W as [|w W'] eqn:HW; [done|]. rewrite <- HW in *.
  replace (length W =? 0)%nat with false in Hout by (by rewrite HW).
  injection Hout as <-. split_and!; [by rewrite HW | done |].
  apply Forall_forall. intros w0 [Hlen Hin]%list_elem_of_filter.
  split; [by destruct w0; [simpl in Hlen; lia|]|].
  apply list_elem_of_fmap in Hin as (w1 & -> & _).
  apply Forall_forall. by intros c [? _]%list_elem_of_filter.
Qed.

Hypothesis keep_first : ∀ c, keep c = true → first (toUpperCase c) = true.
Hypothesis keep_others : ∀ c, keep c = true → others (toLowerCase c) = true.

(** The result is a non-empty list of capitalized words with one space
    between two words. *)
Lemma parse_with_shape s out :
  parse_with keep s = Some out →
  ∃ words : list jsstring,
    words ≠ [] ∧ out = join_space words
    ∧ Forall (word_shape first others) words.
Proof.
  intros (W & Hne & -> & HW)%parse_with_words.
  exists (titlecase <$> W). split_and!; [by destruct W | done |].
  apply Forall_fmap. eapply Forall_impl; [exact HW|].
  intros [|c w] [Hw Hkeep]; [done|]. apply Forall_cons in Hkeep as [Hc Hkeep].
  exists (toUpperCase c), (toLowerCase <$> w).
  split_and!; [apply titlecase_cons | by apply keep_first |].
  apply Forall_fmap. eapply Forall_impl; [exact Hkeep|]. apply keep_others.
Qed.

Hypothesis first_keep : ∀ c, first c = true → keep c = true.
Hypothesis others_keep : ∀ c, others c = true → keep c = true.
Hypothesis first_fixed : ∀ c, first c = true → toUpperCase c = c.
Hypothesis others_fixed : ∀ c, others c = true → toLowerCase c = c.
Hypothesis keep_not_sep : ∀ c, keep c = true → is_sep c = false.

(** A result is left as it is. *)
Lemma parse_with_fixed (words : list jsstring) :
  words ≠ [] → Forall (word_shape first others) words →
  parse_with keep (join_space words) = Some (join_space words).
Proof.
  intros Hne Hwords.
  assert (Forall (λ w, w ≠ [] ∧ Forall (λ c, keep c = true) w) words) as Hkeep.
  { eapply Forall_impl; [exact Hwords|].
    intros w (c & w' & -> & Hc & Hw'). split; [done|].
    constructor; [by apply first_keep|].
    eapply Forall_impl; [exact Hw'|]. apply others_keep. }
  assert (dash_to_space <$> join_space words = join_space words) as Hdash.
  { apply fmap_fixed, Forall_join_space; [done|].
    eapply Forall_impl; [exact Hkeep|]. intros w [_ Hw].
    eapply Forall_impl; [exact Hw|]. intros c Hc.
    by apply not_sep_dash, keep_not_sep. }
  assert (split_ws (join_space words) = words) as Hsplit.
  { apply split_ws_join; [done|].
    eapply Forall_impl; [exact Hkeep|]. intros w [? Hw]. split; [done|].
    eapply Forall_impl; [exact Hw|]. intros c Hc%keep_not_sep.
    unfold is_sep in Hc. by rewrite (not_sep_dash c) in Hc. }
  unfold parse_with. rewrite Hdash, Hsplit.
  assert (filter (λ c : N, keep c = true) <$> words = words) as ->.
  { apply fmap_fixed. eapply Forall_impl; [exact Hkeep|].
    intros w [_ Hw]. by apply filter_all. }
  rewrite (filter_all _ words).
  2:{ eapply Forall_impl; [exact Hkeep|]. intros [|c w] [? _]; [done|].
      simpl. lia. }
  assert (titlecase <$> words = words) as ->.
  { apply fmap_fixed. eapply Forall_impl; [exact Hwords|].
    intros w (c & w' & -> & Hc & Hw'). rewrite titlecase_cons.
    rewrite (first_fixed c Hc). f_equal. apply fmap_fixed.
    eapply Forall_impl; [exact Hw'|]. apply others_fixed. }
  destruct words; [done|]. done.
Qed.

Lemma parse_with_idempotent s out :
  parse_with keep s = Some out → parse_with keep out = Some out.
Proof.
  intros (words & Hne & -> & Hwords)%parse_with_shape.
  by apply parse_with_fixed.
Qed.

End parse_shape.

(** ** parse_handwriting: how the result depends on the input *)

Lemma scan_ext keep1 keep2 s st iw :
  Forall (λ c, keep1 c = keep2 c) s →
  scan keep1 s st iw = scan keep2 s st iw.
Proof.
  intros Hs. revert st iw.
  induction Hs as [|c s Hc _ IH]; intros st iw; [done|].
  cbn [scan]. rewrite Hc, !IH. done.
Qed.

Lemma existsb_ext {A} (f g : A → bool) (l : list A) :
  Forall (λ c, f c = g c) l → existsb f l = existsb g l.
Proof. induction 1 as [|c l Hc _ IH]; [done|]. simpl. by rewrite Hc, IH. Qed.

Lemma existsb_fmap {A B} (f : B → bool) (g : A → B) (l : list A) :
  existsb f (g <$> l) = existsb (f ∘ g) l.
Proof. induction l as [|c l IH]; [done|]. csimpl. by rewrite IH. Qed.

Section scan_props.
Context (keep : N → bool).

Lemma scan_lower s st iw :
  (∀ c, keep (toLowerCase c) = keep c) →
  scan keep (toLowerCase <$> s) st iw = scan keep s st iw.
Proof.
  intros Hkeep. revert st iw.
  induction s as [|c s IH]; intros st iw; [done|].
  rewrite fmap_cons. cbn [scan].
  rewrite is_sep_toLowerCase, Hkeep, !IH.
  by rewrite toLowerCase_idemp, toUpperCase_toLowerCase.
Qed.

Hypothesis keep_not_sep : ∀ c, keep c = true → is_sep c = false.

Lemma sep_not_keep c : is_sep c = true → keep c = false.
Proof.
  intros Hsep. destruct (keep c) eqn:Hk; [|done].
  apply keep_not_sep in Hk. congruence.
Qed.

Lemma scan_none s st iw : existsb keep s = false → scan keep s st iw = [].
Proof.
  revert st iw. induction s as [|c s IH]; intros st iw; [done|].
  simpl. intros [Hc Hs]%orb_false_iff. rewrite Hc.
  destruct (is_sep c); by apply IH.
Qed.

Lemma scan_started s :
  scan keep s true false
  = if existsb keep s then 32%N :: scan keep s false false else [].
Proof.
  induction s as [|c s IH]; [done|]. cbn [scan existsb].
  destruct (is_sep c) eqn:Hsep.
  - by rewrite (sep_not_keep c Hsep).
  - destruct (keep c); [done|]. exact IH.
Qed.

Lemma scan_sep_app s1 c s2 st iw :
  is_sep c = true →
  scan keep (s1 ++ c :: s2) st iw
  = scan keep s1 st iw ++ scan keep s2 (st || existsb keep s1) false.
Proof.
  intros Hc. revert st iw.
  induction s1 as [|d s1 IH]; intros st iw.
  - simpl. by rewrite Hc, orb_false_r.
  - simpl app. cbn [scan existsb]. destruct (is_sep d) eqn:Hd.
    + by rewrite (sep_not_keep d Hd), IH.
    + destruct (keep d).
      * rewrite IH, <- app_assoc. simpl. by rewrite orb_true_r.
      * by rewrite IH.
Qed.

(** Two inputs with a separator between them. *)
Lemma title_scan_sep_app s1 c s2 :
  is_sep c = true →
  title_scan keep (s1 ++ c :: s2)
  = match title_scan keep s1, title_scan keep s2 with
    | Some a, Some b => Some (a ++ 32%N :: b)
    | Some a, None => Some a
    | None, o => o
    end.
Proof.
  intros Hc. unfold title_scan.
  rewrite existsb_app. simpl. rewrite (sep_not_keep c Hc). simpl.
  rewrite scan_sep_app by done. simpl.
  destruct (existsb keep s1) eqn:H1; destruct (existsb keep s2) eqn:H2; simpl.
  - by rewrite scan_started, H2.
  - by rewrite (scan_none s2), app_nil_r.
  - by rewrite (scan_none s1).
  - done.
Qed.

Hypothesis keep_upper : ∀ c, keep c = true → toUpperCase c ≠ 32%N.
Hypothesis keep_lower : ∀ c, keep c = true → toLowerCase c ≠ 32%N.

(** Apart from the spaces and the case, what is written is what is kept. *)
Lemma scan_letters s st iw :
  toLowerCase <$> filter (λ c, c ≠ 32%N) (scan keep s st iw)
  = toLowerCase <$> filter (λ c, keep c = true) s.
Proof.
  revert st iw. induction s as [|c s IH]; intros st iw; [done|].
  cbn [scan]. destruct (is_sep c) eqn:Hsep.
  - rewrite filter_cons_False by (by rewrite (sep_not_keep c Hsep)).
    apply IH.
  - destruct (keep c) eqn:Hk.
    + rewrite (filter_cons_True (λ c, keep c = true)) by done.
      rewrite filter_app, fmap_app, IH, fmap_cons. f_equal.
      destruct iw.
      * rewrite filter_cons_True by by apply keep_lower.
        simpl. by rewrite toLowerCase_idemp.
      * rewrite filter_app.
        assert (filter (λ c, c ≠ 32%N) (if st then [32%N] else []) = []) as ->
          by by destruct st.
        rewrite filter_cons_True by by apply keep_upper.
        simpl. by rewrite toLowerCase_toUpperCase.
    + rewrite (filter_cons_False (λ c, keep c = true)) by (by rewrite Hk).
      apply IH.
Qed.

End scan_props.

Lemma is_alnum_upper_not_space c :
  is_alnum c = true → toUpperCase c ≠ 32%N.
Proof.
  intros Hr%is_alnum_range.
  destruct (toUpperCase_cases c) as [[? ->]|[? ->]]; lia.
Qed.

Lemma is_alnum_lower_not_space c :
  is_alnum c = true → toLowerCase c ≠ 32%N.
Proof.
  intros Hr%is_alnum_range.
  destruct (toLowerCase_cases c) as [[? ->]|[? ->]]; lia.
Qed.

Lemma is_alpha_alnum c : is_alpha c = true → is_alnum c = true.
Proof. intros H. unfold is_alnum. by rewrite H. Qed.

(** ** Resolution: when it succeeds *)

Section success.
Context (cookbook : Cookbook).
Implicit Types (self : Recipe → outcome (option Table)).
Implicit Types (items : list RequiredItem) (t : Table).

(** A table is returned only for a well-founded tree. *)
Lemma getRecipeIngredients_acyclic fuel r t :
  getRecipeIngredients fuel cookbook r = Return (Some t) →
  acyclic cookbook r.
Proof.
  revert r t. induction fuel as [|fuel IH]; intros r t Hres; [done|].
  simpl in Hres. constructor. intros it r' Hin Hi Hr'.
  destruct (resolveItems_inner _ _ _ _ _ _ Hres Hin Hi)
    as (r0 & inner & Hr0 & Hinner).
  assert (r0 = r') as -> by congruence. by eapply IH.
Qed.

(** A [null] comes from an unknown name somewhere in the tree. *)
Lemma resolveItems_null self items t0 :
  resolveItems self cookbook items t0 = Return None →
  ∃ it, it ∈ items ∧ cookbook.(ingredients) !! item_name it = None
        ∧ (cookbook.(recipes) !! item_name it = None
           ∨ ∃ r, cookbook.(recipes) !! item_name it = Some r
                  ∧ self r = Return None).
Proof.
  revert t0. induction items as [|it items IH]; intros t0; simpl; [done|].
  destruct (ingredients cookbook !! item_name it) eqn:Hi.
  { intros (it' & ? & ?)%IH. exists it'. split; [by right|done]. }
  destruct (recipes cookbook !! item_name it) as [r|] eqn:Hr.
  2:{ intros _. exists it. split_and!; [left|done|by left]. }
  destruct (self r) as [| |[inner|]] eqn:Hself; try done.
  - intros (it' & ? & ?)%IH. exists it'. split; [by right|done].
  - intros _. exists it. split_and!; [left|done|]. right. eauto.
Qed.

Lemma getRecipeIngredients_null fuel r :
  getRecipeIngredients fuel cookbook r = Return None →
  ∃ n, mentions cookbook r n
       ∧ cookbook.(ingredients) !! n = None
       ∧ cookbook.(recipes) !! n = None.
Proof.
  revert r. induction fuel as [|fuel IH]; intros r Hres; [done|].
  simpl in Hres.
  apply resolveItems_null in Hres as (it & Hin & Hi & [Hr|(r' & Hr & Hnull)]).
  - exists (item_name it). split; [by constructor|done].
  - destruct (IH r' Hnull) as (n & Hm & ? & ?). exists n.
    split; [by eapply mentions_sub|done].
Qed.

(** The keys of the table are the ingredients that the tree mentions. *)
Lemma resolveItems_keys self items t0 t x :
  resolveItems self cookbook items t0 = Return (Some t) →
  x ∈ t.*1 →
  x ∈ t0.*1
  ∨ ∃ it, it ∈ items
      ∧ (is_Some (cookbook.(ingredients) !! item_name it) ∧ item_name it = x
         ∨ cookbook.(ingredients) !! item_name it = None
           ∧ ∃ r inner, cookbook.(recipes) !! item_name it = Some r
                        ∧ self r = Return (Some inner) ∧ x ∈ inner.*1).
Proof.
  revert t0. induction items as [|it items IH]; intros t0; simpl.
  - intros [= <-]. by left.
  - destruct (ingredients cookbook !! item_name it) as [i|] eqn:Hi.
    + intros Hres Hx. destruct (IH _ Hres Hx) as [Hacc|(it' & Hin & H)].
      * apply add_elem_keys in Hacc as [->|?]; [|by left].
        right. exists it. split; [left|]. left. by rewrite Hi.
      * right. exists it'. split; [by right|done].
    + destruct (recipes cookbook !! item_name it) as [r|] eqn:Hr; [|done].
      destruct (self r) as [| |[inner|]] eqn:Hself; try done.
      intros Hres Hx. destruct (IH _ Hres Hx) as [Hacc|(it' & Hin & H)].
      * apply addInner_elem_keys in Hacc as [?|?]; [by left|].
        right. exists it. split; [left|]. right. split; [done|]. eauto.
      * right. exists it'. split; [by right|done].
Qed.

Lemma resolveItems_keys_inner self items t0 t it r inner x :
  resolveItems self cookbook items t0 = Return (Some t) →
  it ∈ items → cookbook.(ingredients) !! item_name it = None →
  cookbook.(recipes) !! item_name it = Some r →
  self r = Return (Some inner) → x ∈ inner.*1 → x ∈ t.*1.
Proof.
  revert t0. induction items as [|it' items IH]; intros t0 Hres Hin Hi Hr Hs Hx.
  - by apply elem_of_nil in Hin.
  - simpl in Hres. apply elem_of_cons in Hin as [<-|Hin].
    + rewrite Hi, Hr, Hs in Hres.
      eapply resolveItems_keys_acc; [done|]. apply addInner_elem_keys.
      by right.
    + destruct (ingredients cookbook !! item_name it'); [by eapply IH|].
      destruct (recipes cookbook !! item_name it') as [r'|]; [|done].
      destruct (self r') as [| |[inner'|]]; try done. by eapply IH.
Qed.


Lemma getRecipeIngredients_keys fuel r t x :
  getRecipeIngredients fuel cookbook r = Return (Some t) →
  x ∈ t.*1 ↔ mentions cookbook r x ∧ is_Some (cookbook.(ingredients) !! x).
Proof.
  intros Hres. split.
  - revert r t Hres. induction fuel as [|fuel IH]; intros r t Hres Hx; [done|].
    simpl in Hres.
    destruct (resolveItems_keys _ _ _ _ _ Hres Hx)
      as [Hnil|(it & Hin & [[Hi <-]|(Hi & r' & inner & Hr & Hinner & Hx')])].
    + by apply elem_of_nil in Hnil.
    + split; [by constructor|done].
    + destruct (IH _ _ Hinner Hx') as [Hm Hxi]. split; [|done].
      by eapply mentions_sub.
  - intros [Hm Hxi]. revert fuel t Hres.
    induction Hm as [r it Hin|r it r' n Hin Hi Hr Hm IH]; intros fuel t Hres.
    + destruct fuel as [|fuel]; [done|]. simpl in Hres.
      by eapply resolveItems_keys_direct.
    + destruct fuel as [|fuel]; [done|]. simpl in Hres.
      destruct (resolveItems_inner _ _ _ _ _ _ Hres Hin Hi)
        as (r0 & inner & Hr0 & Hinner).
      assert (r0 = r') as -> by congruence.
      eapply resolveItems_keys_inner; [done..|]. by eapply IH.
Qed.

End success.

(** Required items that are ingredients never start a recursive call. *)
Lemma resolveItems_ingredients self cookbook pre rest t0 :
  Forall (λ it, is_Some (cookbook.(ingredients) !! item_name it)) pre →
  ∃ t1, resolveItems self cookbook (pre ++ rest) t0
        = resolveItems self cookbook rest t1.
Proof.
  intros Hpre. revert t0.
  induction Hpre as [|it pre [i Hi] _ IH]; intros t0; [by exists t0|].
  simpl. rewrite Hi. apply IH.
Qed.

(** The trees of the scenarios are well founded. *)
Lemma acyclic_flat cookbook r :
  Forall (λ it, is_Some (cookbook.(ingredients) !! item_name it))
    (requiredItems r) →
  acyclic cookbook r.
Proof.
  intros Hall. constructor. intros it r' Hin Hi _.
  rewrite Forall_forall in Hall. destruct (Hall it Hin) as [i Hi'].
  congruence.
Qed.

Lemma acyclic_batter : acyclic scenarioB batter.
Proof.
  apply acyclic_flat. repeat constructor; eexists; vm_compute; reflexivity.
Qed.

Lemma acyclic_cake : acyclic scenarioB cake.
Proof.
  constructor. intros it r' Hin Hi Hr.
  apply elem_of_cons in Hin as [->|Hin].
  - vm_compute in Hr. injection Hr as <-. apply acyclic_batter.
  - apply list_elem_of_singleton in Hin as ->. vm_compute in Hi.
    discriminate Hi.
Qed.

(** ** Required items that resolve, flat recipes *)

Section cooktime.
Context (cookbook : Cookbook).
Implicit Types (self : Recipe → outcome (option Table)).
Implicit Types (items : list RequiredItem) (t : Table).



Lemma resolveItems_flat self items t0 :
  Forall (λ it, is_Some (cookbook.(ingredients) !! item_name it)) items →
  NoDup (t0.*1 ++ (item_name <$> items)) →
  resolveItems self cookbook items t0
  = Return (Some (t0 ++ ((λ it, (item_name it, 0 + quantity it)) <$> items))).
Proof.
  intros Hitems. revert t0.
  induction Hitems as [|it items [i Hi] _ IH]; intros t0 Hnd.
  - simpl. by rewrite app_nil_r.
  - simpl. rewrite Hi. rewrite add_fresh.
    + rewrite IH; [by rewrite <- app_assoc|].
      rewrite fmap_app. csimpl. by rewrite <- app_assoc.
    + csimpl in Hnd. apply NoDup_app in Hnd as (_ & Hd & _).
      intros Hin. apply (Hd _ Hin). left.
Qed.

End cooktime.

Lemma fold_left_fmap {A B C} (f : A → B) (g : C → B → C) (l : list A) acc :
  fold_left g (f <$> l) acc = fold_left (λ c a, g c (f a)) l acc.
Proof. revert acc. induction l as [|a l IH]; intros acc; [done|]. apply IH. Qed.

(** ** addToMapEntry over a list of entries *)

Lemma add_table_cons k v entries (t : Table) :
  add_table ((k, v) :: entries) t = add_table entries (addToMapEntry k v t).
Proof. done. Qed.

Lemma map_get_add_table (entries : list (string * float)) (t : Table) x :
  map_get x (add_table entries t)
  = accumulate (map_get x t) (snd <$> filter (λ kv, kv.1 = x) entries).
Proof.
  revert t. induction entries as [|[k v] entries IH]; intros t; [done|].
  rewrite add_table_cons, IH, map_get_add.
  destruct (decide (x = k)) as [->|Hne].
  - by rewrite filter_cons_True by done.
  - by rewrite filter_cons_False by (simpl; congruence).
Qed.

Lemma add_table_prefix entries (t : Table) :
  t.*1 `prefix_of` (add_table entries t).*1.
Proof.
  revert t. induction entries as [|[k v] entries IH]; intros t; [done|].
  rewrite add_table_cons. etrans; [|apply IH].
  unfold addToMapEntry. rewrite map_set_keys.
  case_decide; [done|]. by apply prefix_app_r.
Qed.

Lemma add_table_NoDup entries (t : Table) :
  NoDup t.*1 → NoDup (add_table entries t).*1.
Proof.
  revert t. induction entries as [|[k v] entries IH]; intros t Ht; [done|].
  rewrite add_table_cons. by apply IH, add_NoDup.
Qed.


(** ** Registration: what a request does to the catalog *)

Lemma post_entry_accepted cookbook e :
  cookbook.(ingredients) !! entry_name e = None →
  cookbook.(recipes) !! entry_name e = None →
  items_distinct e →
  post_entry cookbook (ParseSuccess e)
  = (insert_entry e cookbook,
     mkResponse 200 (Text "Cookbook Entry successfully added!")).
Proof.
  intros Hi Hr Hd. rewrite post_entry_fresh by done.
  destruct e as [r|i]; [|done]. simpl in Hd. by rewrite decide_True.
Qed.

Lemma post_entry_200 cookbook req :
  status (post_entry cookbook req).2 = 200%nat →
  ∃ e, req = ParseSuccess e
       ∧ cookbook.(ingredients) !! entry_name e = None
       ∧ cookbook.(recipes) !! entry_name e = None
       ∧ items_distinct e
       ∧ (post_entry cookbook req).1 = insert_entry e cookbook.
Proof.
  intros H200.
  destruct (post_entry_cases cookbook req)
    as [[_ H400]|(e & -> & Hi & Hr & _ & He)]; [congruence|].
  exists e. split_and!; [done..| |].
  - destruct e as [r|i]; [by destruct He|done].
  - destruct e as [r|i]; [by destruct He|done].
Qed.

Lemma post_entry_state cookbook req :
  (post_entry cookbook req).1 = cookbook
  ∨ ∃ e, req = ParseSuccess e
         ∧ cookbook.(ingredients) !! entry_name e = None
         ∧ cookbook.(recipes) !! entry_name e = None
         ∧ items_distinct e
         ∧ (post_entry cookbook req).1 = insert_entry e cookbook.
Proof.
  destruct (post_entry_cases cookbook req)
    as [[? _]|(e & -> & Hi & Hr & H200 & He)]; [by left|].
  right. by apply post_entry_200.
Qed.

Lemma extends_refl cb : extends cb cb.
Proof. by split_and!. Qed.

Lemma extends_trans cb1 cb2 cb3 :
  extends cb1 cb2 → extends cb2 cb3 → extends cb1 cb3.
Proof.
  intros (Hi1 & Hr1 & Hn1) (Hi2 & Hr2 & Hn2). split_and!.
  - intros n i ?. by apply Hi2, Hi1.
  - intros n r ?. by apply Hr2, Hr1.
  - intros n Hn [r Hr]. apply Hn2; [by apply Hn1; [|eexists]|].
    exists r. by apply Hr1.
Qed.

Lemma insert_entry_extends e cb :
  cb.(ingredients) !! entry_name e = None →
  cb.(recipes) !! entry_name e = None →
  extends cb (insert_entry e cb).
Proof.
  intros Hi Hr. destruct e as [r|i]; simpl in *; split_and!; simpl.
  - done.
  - intros n r' Hn. rewrite lookup_insert_ne; [done|]. congruence.
  - done.
  - intros n i' Hn. rewrite lookup_insert_ne; [done|]. congruence.
  - done.
  - intros n Hn [r' Hr']. rewrite lookup_insert_ne; [done|]. congruence.
Qed.

Lemma post_entry_extends cookbook req :
  extends cookbook (post_entry cookbook req).1.
Proof.
  destruct (post_entry_state cookbook req)
    as [->|(e & -> & Hi & Hr & _ & ->)]; [apply extends_refl|].
  by apply insert_entry_extends.
Qed.

Lemma post_entries_extends cookbook reqs :
  extends cookbook (post_entries cookbook reqs).
Proof.
  revert cookbook. induction reqs as [|req reqs IH]; intros cookbook.
  - apply extends_refl.
  - rewrite post_entries_cons. eapply extends_trans; [|apply IH].
    apply post_entry_extends.
Qed.

(** A table that was resolved is resolved again, the same, in a larger
    catalog. *)
Lemma resolveItems_extends self self' cb cb' items t0 t :
  extends cb cb' →
  (∀ r t', self r = Return (Some t') → self' r = Return (Some t')) →
  resolveItems self cb items t0 = Return (Some t) →
  resolveItems self' cb' items t0 = Return (Some t).
Proof.
  intros (Hi & Hr & Hn) Hself. revert t0.
  induction items as [|it items IH]; intros t0; simpl; [done|].
  destruct (ingredients cb !! item_name it) as [i|] eqn:Hit.
  - rewrite (Hi _ _ Hit). apply IH.
  - destruct (recipes cb !! item_name it) as [r|] eqn:Hrt; [|done].
    rewrite (Hn _ Hit) by (by rewrite Hrt). rewrite (Hr _ _ Hrt).
    destruct (self r) as [| |[inner|]] eqn:Hs; try done.
    rewrite (Hself _ _ Hs). apply IH.
Qed.

Lemma getRecipeIngredients_extends cb cb' fuel r t :
  extends cb cb' →
  getRecipeIngredients fuel cb r = Return (Some t) →
  getRecipeIngredients fuel cb' r = Return (Some t).
Proof.
  intros Hext. revert r t.
  induction fuel as [|fuel IH]; intros r t; simpl; [done|].
  by apply resolveItems_extends.
Qed.

Lemma total_cookTime_extends cb cb' (t : Table) :
  extends cb cb' →
  (∀ k, k ∈ t.*1 → is_Some (cb.(ingredients) !! k)) →
  total_cookTime cb' t = total_cookTime cb t.
Proof.
  intros (Hi & _ & _). unfold total_cookTime. generalize 0.
  induction t as [|[k q] t IH]; intros acc Hin; [done|].
  simpl. rewrite IH by (intros; apply Hin; by right).
  destruct (Hin k) as [i Hk]; [left|]. unfold cookTime_of.
  by rewrite Hk, (Hi _ _ Hk).
Qed.

Lemma buildSummary_extends cb cb' fuel r s :
  extends cb cb' →
  buildSummary fuel cb r = Return (Some s) →
  buildSummary fuel cb' r = Return (Some s).
Proof.
  intros Hext Hs.
  destruct (getRecipeIngredients fuel cb r) as [| |[t|]] eqn:Hres;
    try (unfold buildSummary in Hs; by rewrite Hres in Hs).
  rewrite (buildSummary_spec _ _ _ _ Hres) in Hs. injection Hs as <-.
  rewrite (buildSummary_spec cb' fuel r t)
    by by apply (getRecipeIngredients_extends cb).
  rewrite (total_cookTime_extends cb cb'); [done..|].
  by destruct (getRecipeIngredients_ok _ _ _ _ Hres).
Qed.

(** Names and required items of what the handler stored. *)
Lemma post_entry_named cookbook req :
  (∀ n r, cookbook.(recipes) !! n = Some r →
          recipe_name r = n ∧ NoDup (item_name <$> requiredItems r)) →
  (∀ n i, cookbook.(ingredients) !! n = Some i → ingredient_name i = n) →
  (∀ n r, (post_entry cookbook req).1.(recipes) !! n = Some r →
          recipe_name r = n ∧ NoDup (item_name <$> requiredItems r))
  ∧ (∀ n i, (post_entry cookbook req).1.(ingredients) !! n = Some i →
            ingredient_name i = n).
Proof.
  intros Hr Hi.
  destruct (post_entry_state cookbook req)
    as [->|(e & -> & _ & _ & Hd & ->)]; [done|].
  destruct e as [r|i]; simpl in *; split; try done.
  - intros n r' [[<- <-]|[_ ?]]%lookup_insert_Some; [done|by apply Hr].
  - intros n i' [[<- <-]|[_ ?]]%lookup_insert_Some; [done|by apply Hi].
Qed.

Lemma post_entries_named cookbook reqs :
  (∀ n r, cookbook.(recipes) !! n = Some r →
          recipe_name r = n ∧ NoDup (item_name <$> requiredItems r)) →
  (∀ n i, cookbook.(ingredients) !! n = Some i → ingredient_name i = n) →
  (∀ n r, (post_entries cookbook reqs).(recipes) !! n = Some r →
          recipe_name r = n ∧ NoDup (item_name <$> requiredItems r))
  ∧ (∀ n i, (post_entries cookbook reqs).(ingredients) !! n = Some i →
            ingredient_name i = n).
Proof.
  revert cookbook. induction reqs as [|req reqs IH]; intros cookbook Hr Hi.
  - done.
  - rewrite post_entries_cons.
    destruct (post_entry_named cookbook req Hr Hi) as [Hr' Hi'].
    by apply IH.
Qed.

Lemma insert_entry_commute e1 e2 cb :
  entry_name e1 ≠ entry_name e2 →
  insert_entry e1 (insert_entry e2 cb) = insert_entry e2 (insert_entry e1 cb).
Proof.
  intros Hne. destruct e1 as [r1|i1], e2 as [r2|i2]; simpl in *;
    try done; f_equal; by apply insert_insert_ne.
Qed.

Lemma insert_entry_lookup_ne e cb n :
  n ≠ entry_name e →
  (insert_entry e cb).(ingredients) !! n = cb.(ingredients) !! n
  ∧ (insert_entry e cb).(recipes) !! n = cb.(recipes) !! n.
Proof.
  intros Hne. destruct e as [r|i]; simpl in *; split; try done;
    by rewrite lookup_insert_ne.
Qed.

(** The answer to an entry depends on the catalog only through the
    presence of its name. *)
Lemma post_entry_same_lookup cb cb' e :
  (is_Some (cb.(ingredients) !! entry_name e)
   ↔ is_Some (cb'.(ingredients) !! entry_name e)) →
  (is_Some (cb.(recipes) !! entry_name e)
   ↔ is_Some (cb'.(recipes) !! entry_name e)) →
  (post_entry cb' (ParseSuccess e)).2 = (post_entry cb (ParseSuccess e)).2
  ∧ ((post_entry cb (ParseSuccess e)).1 = cb
     ∧ (post_entry cb' (ParseSuccess e)).1 = cb'
     ∨ (post_entry cb (ParseSuccess e)).1 = insert_entry e cb
       ∧ (post_entry cb' (ParseSuccess e)).1 = insert_entry e cb').
Proof.
  intros Hi Hr. unfold post_entry, map_has.
  rewrite (bool_decide_ext _ _ Hi), (bool_decide_ext _ _ Hr).
  destruct (bool_decide _ || bool_decide _); [by split; [|left]|].
  destruct e as [r|i]; [|by split; [|right]].
  cbv zeta. destruct (negb _); by split; [|left + right].
Qed.

Lemma post_entry_other_name cb e e' :
  entry_name e ≠ entry_name e' →
  (is_Some (cb.(ingredients) !! entry_name e)
   ↔ is_Some ((post_entry cb (ParseSuccess e')).1.(ingredients)
                !! entry_name e))
  ∧ (is_Some (cb.(recipes) !! entry_name e)
     ↔ is_Some ((post_entry cb (ParseSuccess e')).1.(recipes)
                  !! entry_name e)).
Proof.
  intros Hne.
  destruct (post_entry_state cb (ParseSuccess e'))
    as [->|(e0 & [= <-] & _ & _ & _ & ->)]; [done|].
  destruct (insert_entry_lookup_ne e' cb (entry_name e) Hne) as [-> ->].
  done.
Qed.

(** * The properties of the specification *)

(** ** P1: additivity *)

(** C1, as the code has it. Take a recipe [parent] whose required items
    have pairwise different names, which lists the ingredient [x] directly
    with quantity [a] and the sub-recipe [s] with quantity [b], where [s]
    resolves [x] to the quantity [c], and where no other sub-recipe of
    [parent] yields [x]. Then a successful resolution of [parent] records
    for [x] the binary64 number [a + b * c]: the product and the sum are
    those of the program, rounded to nearest, and the result is the same
    number whichever of the two items comes first. In general, for every
    recipe that resolves, the entry of an ingredient is what the
    contributions of the required items give when they are added one after
    the other, in the order of the items, starting from [0]: contributions
    add up, none overwrites another. *)
Theorem C1_additivity :
  (∀ (cookbook : Cookbook) (fuel fsub : nat) (parent sub : Recipe)
     (t tsub : Table) (x s : string) (a b c : float),
     NoDup (item_name <$> requiredItems parent) →
     is_Some (cookbook.(ingredients) !! x) →
     mkRequiredItem x a ∈ requiredItems parent →
     cookbook.(ingredients) !! s = None →
     cookbook.(recipes) !! s = Some sub →
     mkRequiredItem s b ∈ requiredItems parent →
     getRecipeIngredients fsub cookbook sub = Return (Some tsub) →
     map_get x tsub = Some c →
     (∀ it r' f' t',
        it ∈ requiredItems parent → item_name it ≠ s →
        cookbook.(ingredients) !! item_name it = None →
        cookbook.(recipes) !! item_name it = Some r' →
        getRecipeIngredients f' cookbook r' = Return (Some t') →
        map_get x t' = None) →
     getRecipeIngredients fuel cookbook parent = Return (Some t) →
     ∃ q, map_get x t = Some q ∧ same_number q (a + b * c))
  ∧ (∀ (cookbook : Cookbook) (fuel : nat) (r : Recipe) (t : Table)
       (x : string),
       getRecipeIngredients (S fuel) cookbook r = Return (Some t) →
       map_get x t
       = accumulate None
           (contributions (getRecipeIngredients fuel cookbook) cookbook x
              (requiredItems r))).
Proof.
  split.
  2: { intros cookbook fuel r t x Hres. simpl in Hres.
       apply (resolveItems_contributions cookbook _ _ [] t x); [|done].
       exact (getRecipeIngredients_ok cookbook fuel). }
  intros cookbook fuel fsub parent sub t tsub x s a b c
    Hnd [i Hx] Hdirect Hs Hsub Hvia Htsub Hc Hothers Hres.
  destruct fuel as [|fuel]; [done|]. simpl in Hres.
  set (self := getRecipeIngredients fuel cookbook) in *.
  assert (Hself : self_ok cookbook self)
    by exact (getRecipeIngredients_ok cookbook fuel).
  assert (Hxs : x ≠ s) by (intros ->; congruence).
  pose proof (resolveItems_contributions cookbook self _ _ _ x Hself Hres)
    as Hq.
  cbn [map_get] in Hq.
  destruct (resolveItems_inner cookbook self _ _ _ _ Hres Hvia Hs)
    as (r & inner & Hr & Hinner).
  simpl in Hr. rewrite Hsub in Hr. injection Hr as <-.
  assert (Some inner = Some tsub) as [= ->]
    by (eapply getRecipeIngredients_det; [exact Hinner | exact Htsub]).
  destruct (omap_two (item_contribution self cookbook x)
              (requiredItems parent)
              (mkRequiredItem x a) (mkRequiredItem s b) a (c * b))
    as [Hk|Hk].
  - by apply NoDup_fmap_1 in Hnd.
  - done.
  - done.
  - by intros [= ? ?].
  - unfold item_contribution. simpl. by rewrite Hx, decide_True.
  - unfold item_contribution. simpl. by rewrite Hs, Hsub, Hinner, Hc.
  - intros it Hit Hne1 Hne2. unfold item_contribution.
    destruct (ingredients cookbook !! item_name it) as [i'|] eqn:Hi.
    + rewrite decide_False; [done|]. intros Hname. apply Hne1.
      by apply (NoDup_fmap_eq item_name (requiredItems parent)).
    + destruct (recipes cookbook !! item_name it) as [r'|] eqn:Hr'; [|done].
      destruct (self r') as [| |[inner|]] eqn:Hinner'; try done.
      assert (item_name it ≠ s) as Hnes.
      { intros Hname. apply Hne2.
        by apply (NoDup_fmap_eq item_name (requiredItems parent)). }
      by rewrite (Hothers it r' fuel inner).
  - unfold contributions in Hq. rewrite Hk in Hq. eexists. split; [exact Hq|].
    simpl. rewrite (float_mul_comm b c). apply same_number_add_zero.
  - unfold contributions in Hq. rewrite Hk in Hq. eexists. split; [exact Hq|].
    simpl. rewrite (float_mul_comm b c), (float_add_comm a (c * b)).
    apply same_number_add_zero.
Qed.

(** Scenario B: [cake] lists [egg] at 1 and [batter] at 3, and [batter]
    resolves [egg] to 2. *)
Lemma C1_additivity_witness :
  getRecipeIngredients 2%nat scenarioB cake
    = Return (Some [("egg"%string, qz 7); ("flour"%string, qz 3)])
  ∧ ∃ q, map_get "egg" [("egg"%string, qz 7); ("flour"%string, qz 3)]
         = Some q
         ∧ same_number q (qz 1 + qz 3 * qz 2).
Proof.
  split; [vm_compute; reflexivity|].
  apply (proj1 C1_additivity scenarioB 2%nat 1%nat cake batter
           [("egg"%string, qz 7); ("flour"%string, qz 3)]
           [("egg"%string, qz 2); ("flour"%string, qz 1)]
           "egg"%string "batter"%string (qz 1) (qz 3) (qz 2)).
  - apply (bool_decide_unpack _). vm_compute. reflexivity.
  - eexists. vm_compute. reflexivity.
  - right. left.
  - vm_compute. reflexivity.
  - vm_compute. reflexivity.
  - left.
  - vm_compute. reflexivity.
  - vm_compute. reflexivity.
  - intros it r' f' t' Hit Hne Hi.
    apply elem_of_cons in Hit as [->|Hit]; [by destruct Hne|].
    apply list_elem_of_singleton in Hit as ->. vm_compute in Hi.
    discriminate Hi.
  - vm_compute. reflexivity.
Defined.

(** C1 as stated fails: the quantity is not the number [a + b * c] but
    that number rounded to binary64. The recipe [heap] lists [grain]
    directly at [a = 2^53] and the recipe [one] at [b = 1], and [one]
    resolves [grain] to [c = 1]; the entry of [grain] for [heap] is
    [2^53], where [a + b * c] is [2^53 + 1]. *)
Lemma C1_counterexample :
  getRecipeIngredients 1 heap_cookbook one
    = Return (Some [("grain"%string, qz 1)])
  ∧ getRecipeIngredients 2 heap_cookbook heap
    = Return (Some [("grain"%string, qz (2 ^ 53))])
  ∧ rational_of (qz (2 ^ 53)) = Some (Q2Qc (2 ^ 53))
  ∧ rational_of (qz 1) = Some (Q2Qc 1)
  ∧ rational_of (qz (2 ^ 53)) ≠ Some (Q2Qc (2 ^ 53) + Q2Qc 1 * Q2Qc 1)%Qc
  ∧ qz (2 ^ 53) + qz 1 * qz 1 = qz (2 ^ 53).
Proof.
  split_and!; [vm_compute; reflexivity.. | rational_value | rational_value
              | rational_differs | vm_compute; reflexivity].
Qed.

(** ** P2: scaling *)

(** C2, as the code has it. Let [R] be a recipe that resolves to the table
    [inner], and let [item] be a required item of a recipe [parent] that
    names [R] with the quantity [m]. In a successful resolution of
    [parent], the table reached after [item] is the table reached before
    it plus the entries of [inner], every one multiplied by [m] in
    binary64, that is, rounded to nearest: an ingredient of [inner] with
    the quantity [v] has [v * m] added to its entry, and the other entries
    stay. When [item] is the only required item, the table of [parent] is
    the table of [R] with every quantity multiplied by [m] and added to
    [0]. In Scenario B the summary of cake has egg 7, flour 3 and cookTime
    41. *)
Theorem C2_scaling :
  (∀ (cookbook : Cookbook) (fuel fR : nat) (parent R : Recipe)
     (t inner : Table) (pre post : list RequiredItem) (item : RequiredItem),
     requiredItems parent = pre ++ item :: post →
     cookbook.(ingredients) !! item_name item = None →
     cookbook.(recipes) !! item_name item = Some R →
     getRecipeIngredients fR cookbook R = Return (Some inner) →
     getRecipeIngredients (S fuel) cookbook parent = Return (Some t) →
     ∃ tpre,
       resolveItems (getRecipeIngredients fuel cookbook) cookbook pre []
         = Return (Some tpre)
       ∧ resolveItems (getRecipeIngredients fuel cookbook) cookbook post
           (add_table (scale_table (quantity item) inner) tpre)
         = Return (Some t)
       ∧ (∀ x, map_get x (add_table (scale_table (quantity item) inner) tpre)
               = match map_get x inner with
                 | Some v =>
                     Some (default 0 (map_get x tpre) + v * quantity item)
                 | None => map_get x tpre
                 end)
       ∧ (pre = [] → post = [] →
          t = (λ kv, (kv.1, 0 + kv.2))
                <$> scale_table (quantity item) inner))
  ∧ get_summary 3 scenarioB (Some "cake"%string)
    = Return (mkResponse 200
                (Json (mkSummary "cake" (qz 41)
                         [("egg"%string, qz 7); ("flour"%string, qz 3)]))).
Proof.
  split; [|vm_compute; reflexivity].
  intros cookbook fuel fR parent R t inner pre post item
    Hitems Hi HR Hinner Hres.
  simpl in Hres. rewrite Hitems in Hres.
  apply resolveItems_app in Hres as (tpre & Hpre & Hpost).
  simpl in Hpost. rewrite Hi, HR in Hpost.
  destruct (getRecipeIngredients fuel cookbook R) as [| |[inner'|]] eqn:HR';
    try done.
  assert (Some inner' = Some inner) as [= ->]
    by (eapply getRecipeIngredients_det; [exact HR' | exact Hinner]).
  pose proof (getRecipeIngredients_ok _ _ _ _ Hinner) as [Hnd _].
  rewrite addInner_scale in Hpost.
  exists tpre. split_and!; [done | done | |].
  - intros x. rewrite <- addInner_scale. by apply map_get_addInner.
  - intros -> ->. simpl in Hpre, Hpost.
    injection Hpre as <-. injection Hpost as <-.
    rewrite add_table_fresh; [done|]. simpl. by rewrite scale_table_keys.
Qed.

(** Scenario B: [batter] is the first required item of [cake], at 3. *)
Lemma C2_scaling_witness :
  ∃ tpre,
    resolveItems (getRecipeIngredients 1 scenarioB) scenarioB [] []
      = Return (Some tpre)
    ∧ resolveItems (getRecipeIngredients 1 scenarioB) scenarioB
        [mkRequiredItem "egg" (qz 1)]
        (add_table
           (scale_table (qz 3) [("egg"%string, qz 2); ("flour"%string, qz 1)])
           tpre)
      = Return (Some [("egg"%string, qz 7); ("flour"%string, qz 3)])
    ∧ (∀ x, map_get x
              (add_table
                 (scale_table (qz 3)
                    [("egg"%string, qz 2); ("flour"%string, qz 1)]) tpre)
            = match map_get x [("egg"%string, qz 2); ("flour"%string, qz 1)]
              with
              | Some v => Some (default 0 (map_get x tpre) + v * qz 3)
              | None => map_get x tpre
              end)
    ∧ (@nil RequiredItem = [] → [mkRequiredItem "egg" (qz 1)] = [] →
       [("egg"%string, qz 7); ("flour"%string, qz 3)]
       = (λ kv, (kv.1, 0 + kv.2))
           <$> scale_table (qz 3)
                 [("egg"%string, qz 2); ("flour"%string, qz 1)]).
Proof.
  apply (proj1 C2_scaling scenarioB 1%nat 1%nat cake batter
           [("egg"%string, qz 7); ("flour"%string, qz 3)]
           [("egg"%string, qz 2); ("flour"%string, qz 1)]
           [] [mkRequiredItem "egg" (qz 1)] (mkRequiredItem "batter" (qz 3)));
    vm_compute; reflexivity.
Defined.

(** C2 as stated fails: the multiplication rounds. The recipe [dressing]
    resolves [oil] to the number [0.1] of the program, and [salad] lists
    [dressing] at [m = 3]; the entry of [oil] for [salad] is the binary64
    product, [0.30000000000000004], which is not 3 times the quantity. *)
Lemma C2_counterexample :
  getRecipeIngredients 1 salad_cookbook dressing
    = Return (Some [("oil"%string, tenth)])
  ∧ getRecipeIngredients 2 salad_cookbook salad
    = Return (Some [("oil"%string, tenth * qz 3)])
  ∧ rational_of tenth = Some (Q2Qc (3602879701896397 # 36028797018963968))
  ∧ rational_of (qz 3) = Some (Q2Qc 3)
  ∧ rational_of (tenth * qz 3)
    = Some (Q2Qc (5404319552844596 # 18014398509481984))
  ∧ rational_of (tenth * qz 3)
    ≠ Some (Q2Qc (3602879701896397 # 36028797018963968) * Q2Qc 3)%Qc.
Proof.
  split_and!; [vm_compute; reflexivity.. | rational_value | rational_value
              | rational_value | rational_differs].
Qed.

(** ** P3: failure propagation *)

(** C3. Failure propagation. If the tree of required items of a recipe is
    well founded (no cycle) and mentions a name that is neither an
    ingredient nor a recipe of the catalog, then [getRecipeIngredients]
    returns, and returns [null]: there is no table at all, and
    [buildSummary] returns [null] as well. When the recursive call for a
    required item returns [null], the loop returns [null] at once,
    whatever the remaining required items are. *)
Theorem C3_failure_propagation :
  (∀ (cookbook : Cookbook) (r : Recipe) (n : string),
     acyclic cookbook r →
     mentions cookbook r n →
     cookbook.(ingredients) !! n = None →
     cookbook.(recipes) !! n = None →
     ∃ fuel0, ∀ fuel, (fuel0 ≤ fuel)%nat →
       getRecipeIngredients fuel cookbook r = Return None
       ∧ buildSummary fuel cookbook r = Return None)
  ∧ (∀ (self : Recipe → outcome (option Table)) (cookbook : Cookbook)
       (item : RequiredItem) (rest : list RequiredItem) (table : Table)
       (R : Recipe),
       cookbook.(ingredients) !! item_name item = None →
       cookbook.(recipes) !! item_name item = Some R →
       self R = Return None →
       resolveItems self cookbook (item :: rest) table = Return None).
Proof.
  split.
  - intros cookbook r n Hacyclic Hm Hi Hr.
    destruct (getRecipeIngredients_returns cookbook r Hacyclic)
      as (fuel0 & v & Hv).
    destruct v as [t|].
    { by destruct (mentions_unknown_fails cookbook r n fuel0 t). }
    exists fuel0. intros fuel Hle.
    apply (getRecipeIngredients_mono cookbook fuel0 fuel) in Hv; [|done].
    unfold buildSummary. by rewrite Hv.
  - intros self cookbook item rest table R Hi HR Hself. simpl.
    by rewrite Hi, HR, Hself.
Qed.

(** Scenario E; and [stew], whose second required item is never looked at. *)
Lemma C3_failure_propagation_witness :
  (∃ fuel0, ∀ fuel, (fuel0 ≤ fuel)%nat →
     getRecipeIngredients fuel scenarioE soup = Return None
     ∧ buildSummary fuel scenarioE soup = Return None)
  ∧ resolveItems (getRecipeIngredients 1 stew_cookbook) stew_cookbook
      (requiredItems stew) [] = Return None.
Proof.
  split.
  - apply (proj1 C3_failure_propagation scenarioE soup "water"%string).
    + constructor. intros it r' Hin%list_elem_of_singleton _ Hr. subst it.
      vm_compute in Hr. done.
    + apply (mentions_here scenarioE soup (mkRequiredItem "water" (qz 1))).
      left.
    + vm_compute. reflexivity.
    + vm_compute. reflexivity.
  - apply (proj2 C3_failure_propagation _ stew_cookbook _ _ _ soup);
      vm_compute; reflexivity.
Defined.

(** ** P4 and P5: registration *)

(** C4. Uniqueness. After every sequence of [/entry] requests sent to the
    empty catalog, no name is a key of both maps, and the names of the
    entries that were registered (the requests answered 200) are pairwise
    different. An entry whose name is a key of either map is refused with
    the duplicate-name answer, and the catalog is unchanged. *)
Theorem C4_uniqueness :
  (∀ reqs : list SafeParseReturn,
     catalog_disjoint (post_entries cookbook0 reqs)
     ∧ NoDup (registered_names cookbook0 reqs))
  ∧ (∀ (cookbook : Cookbook) (e : CookbookEntry),
       is_Some (cookbook.(ingredients) !! entry_name e)
       ∨ is_Some (cookbook.(recipes) !! entry_name e) →
       post_entry cookbook (ParseSuccess e)
       = (cookbook,
          mkResponse 400
            (Text "An existing entry with the same name already exist."))).
Proof.
  split; [|apply post_entry_duplicate_name].
  intros reqs. split.
  - apply post_entries_disjoint. intros n [[? Hn] _].
    simpl in Hn. by rewrite lookup_empty in Hn.
  - apply registered_names_fresh.
Qed.

(** A recipe named [egg] sent to the catalog of Scenario A. *)
Lemma C4_uniqueness_witness :
  post_entry scenarioA (ParseSuccess (EntryRecipe (mkRecipe "egg" [])))
  = (scenarioA,
     mkResponse 400
       (Text "An existing entry with the same name already exist.")).
Proof.
  apply (proj2 C4_uniqueness scenarioA (EntryRecipe (mkRecipe "egg" []))).
  left. eexists. vm_compute. reflexivity.
Defined.

(** C5. Duplicate required items. A recipe in which two required items, at
    different positions, have the same name is refused with status 400 and
    the catalog is unchanged; the answer is the duplicate-required-item
    message when the name of the recipe is new. Every request that is not
    answered 200 leaves both maps as they were: all the checks come before
    the only [set]. *)
Theorem C5_duplicate_items_rejected :
  (∀ (cookbook : Cookbook) (r : Recipe) (i j : nat) (it1 it2 : RequiredItem),
     i ≠ j →
     requiredItems r !! i = Some it1 →
     requiredItems r !! j = Some it2 →
     item_name it1 = item_name it2 →
     (post_entry cookbook (ParseSuccess (EntryRecipe r))).1 = cookbook
     ∧ status (post_entry cookbook (ParseSuccess (EntryRecipe r))).2 = 400%nat
     ∧ (cookbook.(ingredients) !! recipe_name r = None →
        cookbook.(recipes) !! recipe_name r = None →
        payload (post_entry cookbook (ParseSuccess (EntryRecipe r))).2
        = Text "Required items cannot have multiple elements with the same name."))
  ∧ (∀ (cookbook : Cookbook) (req : SafeParseReturn),
       status (post_entry cookbook req).2 ≠ 200%nat →
       (post_entry cookbook req).1 = cookbook).
Proof.
  split.
  - intros cookbook r i j it1 it2 Hij H1 H2 Hname.
    assert (¬ NoDup (item_name <$> requiredItems r)) as Hdup.
    { intros Hnd. apply Hij.
      apply (NoDup_lookup _ i j (item_name it1) Hnd).
      - by rewrite list_lookup_fmap, H1.
      - by rewrite list_lookup_fmap, H2, Hname. }
    destruct (cookbook.(ingredients) !! recipe_name r) eqn:Hi.
    { rewrite post_entry_duplicate_name; [done|]. left. simpl. by rewrite Hi. }
    destruct (cookbook.(recipes) !! recipe_name r) eqn:Hr.
    { rewrite post_entry_duplicate_name; [done|]. right. simpl. by rewrite Hr. }
    rewrite (post_entry_fresh _ (EntryRecipe r)) by done.
    by rewrite decide_False.
  - intros cookbook req Hstatus.
    destruct (post_entry_cases cookbook req)
      as [[-> _]|(e & -> & _ & _ & H200 & _)]; done.
Qed.

(** A batter that lists [egg] twice, sent to the catalog of Scenario A;
    and the refusal of a second [egg]. *)
Lemma C5_duplicate_items_rejected_witness :
  ((post_entry scenarioA
      (ParseSuccess
         (EntryRecipe
            (mkRecipe "omelette"
               [mkRequiredItem "egg" (qz 2); mkRequiredItem "egg" (qz 1)])))).1
   = scenarioA)
  ∧ (post_entry scenarioA (ParseSuccess egg)).1 = scenarioA.
Proof.
  split.
  - apply (proj1 C5_duplicate_items_rejected scenarioA
             (mkRecipe "omelette"
                [mkRequiredItem "egg" (qz 2); mkRequiredItem "egg" (qz 1)])
             0%nat 1%nat (mkRequiredItem "egg" (qz 2))
             (mkRequiredItem "egg" (qz 1))); [lia|reflexivity..].
  - apply (proj2 C5_duplicate_items_rejected scenarioA (ParseSuccess egg)).
    vm_compute. lia.
Defined.

(** ** The summary *)

(** C6, as the code has it. When [getRecipeIngredients] returns a table,
    every name in it is a key of the ingredient map, so the lookup with
    the non-null assertion in [buildSummary] never raises; [buildSummary]
    returns the summary that has the name of the recipe, the entries of
    the table as its ingredients, and as cookTime what the loop adds up:
    starting from [0], the cookTime of the ingredient times the quantity
    of every entry in turn, each product and each sum rounded to
    binary64. *)
Theorem C6_summary_lookup_safe :
  ∀ (cookbook : Cookbook) (fuel : nat) (r : Recipe) (t : Table),
    getRecipeIngredients fuel cookbook r = Return (Some t) →
    (∀ k, k ∈ t.*1 → is_Some (cookbook.(ingredients) !! k))
    ∧ (∀ s0, summaryLoop cookbook t s0 ≠ Throw)
    ∧ buildSummary fuel cookbook r
      = Return (Some (mkSummary (recipe_name r)
                        (fold_left
                           (λ acc kv, acc + cookTime_of cookbook kv.1 * kv.2)
                           t 0)
                        t)).
Proof.
  intros cookbook fuel r t Hres.
  pose proof (getRecipeIngredients_ok _ _ _ _ Hres) as [_ Hin].
  split_and!; [done | | by apply buildSummary_spec].
  intros s0. by rewrite summaryLoop_spec.
Qed.

Lemma C6_summary_lookup_safe_witness :
  (∀ k, k ∈ [("egg"%string, qz 7); ("flour"%string, qz 3)].*1 →
        is_Some (scenarioB.(ingredients) !! k))
  ∧ (∀ s0, summaryLoop scenarioB [("egg"%string, qz 7); ("flour"%string, qz 3)] s0
           ≠ Throw)
  ∧ buildSummary 2 scenarioB cake
    = Return (Some (mkSummary "cake"
                      (fold_left
                         (λ acc kv, acc + cookTime_of scenarioB kv.1 * kv.2)
                         [("egg"%string, qz 7); ("flour"%string, qz 3)] 0)
                      [("egg"%string, qz 7); ("flour"%string, qz 3)])).
Proof.
  apply (C6_summary_lookup_safe scenarioB 2%nat cake
           [("egg"%string, qz 7); ("flour"%string, qz 3)]).
  vm_compute. reflexivity.
Defined.

(** C6 as stated fails in its last part: the cookTime is not the sum of
    the products but what the additions of the loop, each rounded, leave.
    The recipe [pilaf] resolves to rice [2^53], salt 1 and pepper 1, and
    each of the three has cookTime 1; the summary has cookTime [2^53],
    where the sum of the products is [2^53 + 2]. *)
Lemma C6_counterexample :
  getRecipeIngredients 1 pilaf_cookbook pilaf
    = Return (Some [("rice"%string, qz (2 ^ 53)); ("salt"%string, qz 1);
                    ("pepper"%string, qz 1)])
  ∧ cookTime_of pilaf_cookbook "rice" = qz 1
  ∧ cookTime_of pilaf_cookbook "salt" = qz 1
  ∧ cookTime_of pilaf_cookbook "pepper" = qz 1
  ∧ buildSummary 1 pilaf_cookbook pilaf
    = Return (Some (mkSummary "pilaf" (qz (2 ^ 53))
                      [("rice"%string, qz (2 ^ 53)); ("salt"%string, qz 1);
                       ("pepper"%string, qz 1)]))
  ∧ rational_of (qz (2 ^ 53)) = Some (Q2Qc (2 ^ 53))
  ∧ rational_of (qz 1) = Some (Q2Qc 1)
  ∧ rational_of (qz (2 ^ 53))
    ≠ Some (Q2Qc 1 * Q2Qc (2 ^ 53) + Q2Qc 1 * Q2Qc 1 + Q2Qc 1 * Q2Qc 1)%Qc.
Proof.
  split_and!; [vm_compute; reflexivity.. | rational_value | rational_value
              | rational_differs].
Qed.

(** C8, as the code has it. In a catalog whose stored quantities and
    cookTimes all pass the check [>= 0] of the schema, a table returned by
    [getRecipeIngredients] for a recipe with such quantities has no
    quantity below zero, and [buildSummary] returns a summary whose
    cookTime is not below zero: each is at least [0], possibly [infinity],
    or it is [nan]. The catalogs that the [/entry] handler builds from
    entries accepted by the schema are of this kind. *)
Theorem C8_nonnegative :
  (∀ (cookbook : Cookbook) (fuel : nat) (r : Recipe) (t : Table),
     catalog_nonneg cookbook →
     Forall (λ it, (0 <=? quantity it) = true) (requiredItems r) →
     getRecipeIngredients fuel cookbook r = Return (Some t) →
     table_not_negative t
     ∧ ∃ s, buildSummary fuel cookbook r = Return (Some s)
            ∧ not_negative (summary_cookTime s))
  ∧ (∀ reqs : list SafeParseReturn,
       Forall parsed_ok reqs →
       catalog_nonneg (post_entries cookbook0 reqs)).
Proof.
  split.
  - intros cookbook fuel r t Hcat Hr Hres.
    pose proof (getRecipeIngredients_not_negative _ _ _ _ Hcat Hr Hres) as Ht.
    split; [done|]. eexists. split; [by apply buildSummary_spec|].
    simpl. by apply total_cookTime_not_negative.
  - intros reqs Hreqs. apply post_entries_nonneg; [done|].
    split; intros n x Hn; simpl in Hn; by rewrite lookup_empty in Hn.
Qed.

Lemma C8_nonnegative_witness :
  table_not_negative [("egg"%string, qz 7); ("flour"%string, qz 3)]
  ∧ ∃ s, buildSummary 2 scenarioB cake = Return (Some s)
         ∧ not_negative (summary_cookTime s).
Proof.
  apply (proj1 C8_nonnegative scenarioB 2%nat cake).
  - apply (proj2 C8_nonnegative
             [ParseSuccess egg; ParseSuccess flour;
              ParseSuccess (EntryRecipe batter);
              ParseSuccess (EntryRecipe cake)]).
    repeat constructor; by vm_compute.
  - repeat constructor; by vm_compute.
  - vm_compute. reflexivity.
Defined.

(** C8 as stated fails: quantities overflow to [infinity], and
    [0 * infinity] is [nan], which is not a number and of which [>= 0] is
    false. The four entries of [overflow_requests] pass the schema; the
    summary of [bigger] has the quantity [infinity] and the cookTime
    [nan], and the summary of [nothing] has the quantity [nan]. *)
Lemma C8_counterexample :
  Forall parsed_ok overflow_requests
  ∧ catalog_nonneg overflow_cookbook
  ∧ buildSummary 3 overflow_cookbook bigger
    = Return (Some (mkSummary "bigger" nan [("air"%string, infinity)]))
  ∧ buildSummary 4 overflow_cookbook nothing
    = Return (Some (mkSummary "nothing" nan [("air"%string, nan)]))
  ∧ (0 <=? nan) = false
  ∧ rational_of nan = None.
Proof.
  assert (Forall parsed_ok overflow_requests) as Hreqs
    by (repeat constructor; by vm_compute).
  split_and!; try (vm_compute; reflexivity); [done|].
  apply post_entries_nonneg; [done|].
  split; intros n x Hn; simpl in Hn; by rewrite lookup_empty in Hn.
Qed.

(** C10. A recipe without required items resolves, for every non-zero
    budget, to the empty table; its summary has its name, cookTime 0 and no
    ingredients; and the [/summary] handler answers 200 with that summary
    when the recipe is stored under a name that is not an ingredient. *)
Theorem C10_empty_recipe :
  ∀ (cookbook : Cookbook) (fuel : nat) (r : Recipe),
    requiredItems r = [] →
    getRecipeIngredients (S fuel) cookbook r = Return (Some [])
    ∧ buildSummary (S fuel) cookbook r
      = Return (Some (mkSummary (recipe_name r) 0 []))
    ∧ (∀ n, cookbook.(ingredients) !! n = None →
            cookbook.(recipes) !! n = Some r →
            get_summary (S fuel) cookbook (Some n)
            = Return (mkResponse 200 (Json (mkSummary (recipe_name r) 0 [])))).
Proof.
  intros cookbook fuel r Hr.
  assert (getRecipeIngredients (S fuel) cookbook r = Return (Some [])) as Hres
    by (simpl; by rewrite Hr).
  assert (buildSummary (S fuel) cookbook r
          = Return (Some (mkSummary (recipe_name r) 0 []))) as Hsum
    by (unfold buildSummary; by rewrite Hres).
  split_and!; [done..|].
  intros n Hi Hn. unfold get_summary. by rewrite Hi, Hn, Hsum.
Qed.

(** A catalog that holds one recipe, [water], without required items. *)
Lemma C10_empty_recipe_witness :
  getRecipeIngredients 1 water_cookbook water = Return (Some [])
  ∧ buildSummary 1 water_cookbook water
    = Return (Some (mkSummary "water" 0 []))
  ∧ get_summary 1 water_cookbook (Some "water"%string)
    = Return (mkResponse 200 (Json (mkSummary "water" 0 []))).
Proof.
  destruct (C10_empty_recipe water_cookbook 0%nat water) as (H1 & H2 & H3);
    [reflexivity|].
  split_and!; [exact H1 | exact H2 |].
  apply (H3 "water"%string); vm_compute; reflexivity.
Defined.

(** ** The [/summary] handler *)

(** C7, as the code has it. For a queried name the handler answers: the
    name-is-an-ingredient failure when the name is a key of the ingredient
    map, whether or not it is also a recipe; the not-found failure when it
    is a key of neither map; and, when it names a recipe (and no
    ingredient) whose tree of required items is well founded, either 200
    with the summary or the unresolvable-reference failure, the same
    answer for every budget that is large enough. *)
Theorem C7_summary_outcomes :
  ∀ (cookbook : Cookbook) (name : string),
    (is_Some (cookbook.(ingredients) !! name) →
     ∀ fuel, get_summary fuel cookbook (Some name)
             = Return (mkResponse 400
                         (Text "An existing ingredient has the provided name.")))
    ∧ (cookbook.(ingredients) !! name = None →
       cookbook.(recipes) !! name = None →
       ∀ fuel, get_summary fuel cookbook (Some name)
               = Return (mkResponse 400
                           (Text "No recipe with the provided name found.")))
    ∧ (∀ r, cookbook.(ingredients) !! name = None →
            cookbook.(recipes) !! name = Some r →
            acyclic cookbook r →
            ∃ fuel0 resp,
              (∀ fuel, (fuel0 ≤ fuel)%nat →
                 get_summary fuel cookbook (Some name) = Return resp)
              ∧ ((∃ t, resp = mkResponse 200
                                (Json (mkSummary (recipe_name r)
                                         (total_cookTime cookbook t) t)))
                 ∨ resp = mkResponse 400
                     (Text "The recipe contains recipes or ingredients not in the cookbook."))).
Proof.
  intros cookbook name. split_and!.
  - intros [i Hi] fuel. simpl. by rewrite Hi.
  - intros Hi Hr fuel. simpl. by rewrite Hi, Hr.
  - intros r Hi Hr Hacyclic.
    destruct (getRecipeIngredients_returns cookbook r Hacyclic)
      as (fuel0 & v & Hv).
    exists fuel0. destruct v as [t|].
    + eexists. split; [|left; by exists t].
      intros fuel Hle. simpl. rewrite Hi, Hr.
      apply (getRecipeIngredients_mono cookbook fuel0 fuel) in Hv; [|done].
      by rewrite (buildSummary_spec _ _ _ _ Hv).
    + eexists. split; [|by right].
      intros fuel Hle. simpl. rewrite Hi, Hr.
      apply (getRecipeIngredients_mono cookbook fuel0 fuel) in Hv; [|done].
      unfold buildSummary. by rewrite Hv.
Qed.

(** Scenarios C, D and E. *)
Lemma C7_summary_outcomes_witness :
  get_summary 0 scenarioB (Some "egg"%string)
  = Return (mkResponse 400
              (Text "An existing ingredient has the provided name."))
  ∧ get_summary 0 scenarioB (Some "pie"%string)
    = Return (mkResponse 400 (Text "No recipe with the provided name found."))
  ∧ ∃ fuel0 resp,
      (∀ fuel, (fuel0 ≤ fuel)%nat →
         get_summary fuel scenarioE (Some "soup"%string) = Return resp)
      ∧ ((∃ t, resp = mkResponse 200
                        (Json (mkSummary "soup" (total_cookTime scenarioE t) t)))
         ∨ resp = mkResponse 400
             (Text "The recipe contains recipes or ingredients not in the cookbook.")).
Proof.
  split_and!.
  - apply (proj1 (C7_summary_outcomes scenarioB "egg"%string)).
    eexists. vm_compute. reflexivity.
  - apply (proj1 (proj2 (C7_summary_outcomes scenarioB "pie"%string)));
      vm_compute; reflexivity.
  - apply (proj2 (proj2 (C7_summary_outcomes scenarioE "soup"%string)) soup).
    + vm_compute. reflexivity.
    + vm_compute. reflexivity.
    + constructor. intros it r' Hin%list_elem_of_singleton _ Hr. subst it.
      vm_compute in Hr. done.
Defined.

(** C7 as stated fails: the catalog that holds the recipe [ouroboros],
    which the [/entry] handler accepts, makes the handler recurse for
    ever on the query [ouroboros]; it answers with none of the four
    outcomes. *)
Lemma C7_counterexample :
  cyclic_cookbook.(ingredients) !! "ouroboros"%string = None
  ∧ cyclic_cookbook.(recipes) !! "ouroboros"%string = Some ouroboros
  ∧ ¬ ∃ fuel resp,
        get_summary fuel cyclic_cookbook (Some "ouroboros"%string)
        = Return resp.
Proof.
  split_and!; [vm_compute; reflexivity..|].
  intros (fuel & resp & H). unfold get_summary in H.
  assert (cyclic_cookbook.(ingredients) !! "ouroboros"%string = None) as Hi
    by (vm_compute; reflexivity).
  assert (cyclic_cookbook.(recipes) !! "ouroboros"%string = Some ouroboros)
    as Hr by (vm_compute; reflexivity).
  rewrite Hi, Hr in H. unfold buildSummary in H.
  rewrite ouroboros_diverges in H. discriminate H.
Qed.

(** ** parse_handwriting *)

(** C9, as the code has it. [parse_handwriting] returns the words of the
    input, title-cased and joined by single spaces, where white space,
    hyphens and underscores separate the words and every other character
    that is not a letter is deleted without separating anything (the
    version of [devdonalds.ts] keeps the digits as well); this is what one
    pass from left to right writes. It returns [null] exactly when the
    input has no letter (for [devdonalds.ts]: no letter and no digit). *)
Theorem C9_parse_handwriting :
  ∀ s : jsstring,
    parse_handwriting s = title_scan is_alpha s
    ∧ parse_handwriting_ts s = title_scan is_alnum s
    ∧ (parse_handwriting s = None ↔ Forall (λ c, is_alpha c = false) s)
    ∧ (parse_handwriting_ts s = None ↔ Forall (λ c, is_alnum c = false) s).
Proof.
  intros s. unfold parse_handwriting, parse_handwriting_ts. split_and!.
  - apply parse_with_scan, is_alpha_not_sep.
  - apply parse_with_scan, is_alnum_not_sep.
  - apply parse_with_null, is_alpha_not_sep.
  - apply parse_with_null, is_alnum_not_sep.
Qed.

(** C9 as stated fails: [@] is deleted and separates nothing, where the
    stated normalization makes it a space; and the solution deletes the
    digit that the stated normalization retains. *)
Lemma C9_counterexample :
  parse_handwriting (str "a@b") = Some (str "Ab")
  ∧ parse_handwriting_ts (str "a@b") = Some (str "Ab")
  ∧ claimed_normalize (str "a@b") = Some (str "A B")
  ∧ parse_handwriting (str "a1") = Some (str "A")
  ∧ claimed_normalize (str "a1") = Some (str "A1")
  ∧ parse_handwriting (str "a@b") ≠ claimed_normalize (str "a@b")
  ∧ parse_handwriting_ts (str "a@b") ≠ claimed_normalize (str "a@b")
  ∧ parse_handwriting (str "a1") ≠ claimed_normalize (str "a1").
Proof. split_and!; by vm_compute. Qed.

(** * Further properties of the code *)

(** ** parse_handwriting *)

(** X1. A result of [parse_handwriting] (solution) is a non-empty list of
    words joined by single spaces, each word one upper-case letter
    followed by lower-case letters: there is no leading, trailing or
    double space and no other character. *)
Theorem X1_parse_handwriting_shape :
  ∀ s out : jsstring,
    parse_handwriting s = Some out →
    ∃ words : list jsstring,
      words ≠ [] ∧ out = join_space words
      ∧ Forall (word_shape is_upper is_lower) words.
Proof.
  intros s out. apply parse_with_shape.
  - apply is_alpha_upper.
  - apply is_alpha_lower.
Qed.

Lemma X1_parse_handwriting_shape_witness :
  ∃ words : list jsstring,
    words ≠ [] ∧ str "Rizz Risotto" = join_space words
    ∧ Forall (word_shape is_upper is_lower) words.
Proof.
  apply (X1_parse_handwriting_shape (str "  Riz@z RISO00tto!")).
  vm_compute. reflexivity.
Defined.

(** X2. A result of [parse_handwriting] of [devdonalds.ts] is a non-empty
    list of words joined by single spaces, each word one upper-case letter
    or digit followed by lower-case letters and digits. *)
Theorem X2_parse_handwriting_ts_shape :
  ∀ s out : jsstring,
    parse_handwriting_ts s = Some out →
    ∃ words : list jsstring,
      words ≠ [] ∧ out = join_space words
      ∧ Forall (word_shape (λ c, is_upper c || is_digit c)
                  (λ c, is_lower c || is_digit c)) words.
Proof.
  intros s out. apply parse_with_shape.
  - intros c [Hc|Hc]%orb_true_iff; apply orb_true_iff.
    + left. by apply is_alpha_upper.
    + right. by rewrite is_digit_toUpperCase.
  - intros c [Hc|Hc]%orb_true_iff; apply orb_true_iff.
    + left. by apply is_alpha_lower.
    + right. by rewrite is_digit_toLowerCase.
Qed.

Lemma X2_parse_handwriting_ts_shape_witness :
  ∃ words : list jsstring,
    words ≠ [] ∧ str "Rizz Riso00tto" = join_space words
    ∧ Forall (word_shape (λ c, is_upper c || is_digit c)
                (λ c, is_lower c || is_digit c)) words.
Proof.
  apply (X2_parse_handwriting_ts_shape (str "  Riz@z RISO00tto!")).
  vm_compute. reflexivity.
Defined.

(** X3. [parse_handwriting] is idempotent: a result, parsed again, is
    returned unchanged (both versions). *)
Theorem X3_parse_handwriting_idempotent :
  ∀ s out : jsstring,
    (parse_handwriting s = Some out → parse_handwriting out = Some out)
    ∧ (parse_handwriting_ts s = Some out →
       parse_handwriting_ts out = Some out).
Proof.
  intros s out. split.
  - apply (parse_with_idempotent is_alpha is_upper is_lower).
    + apply is_alpha_upper.
    + apply is_alpha_lower.
    + apply is_upper_alpha.
    + apply is_lower_alpha.
    + apply is_upper_fixed.
    + apply is_lower_fixed.
    + apply is_alpha_not_sep.
  - apply (parse_with_idempotent is_alnum
             (λ c, is_upper c || is_digit c) (λ c, is_lower c || is_digit c)).
    + intros c [Hc|Hc]%orb_true_iff; apply orb_true_iff.
      * left. by apply is_alpha_upper.
      * right. by rewrite is_digit_toUpperCase.
    + intros c [Hc|Hc]%orb_true_iff; apply orb_true_iff.
      * left. by apply is_alpha_lower.
      * right. by rewrite is_digit_toLowerCase.
    + intros c [Hc|Hc]%orb_true_iff; apply orb_true_iff.
      * left. by apply is_upper_alpha.
      * by right.
    + intros c [Hc|Hc]%orb_true_iff; apply orb_true_iff.
      * left. by apply is_lower_alpha.
      * by right.
    + intros c [Hc|Hc]%orb_true_iff.
      * by apply is_upper_fixed.
      * by apply is_digit_toUpperCase.
    + intros c [Hc|Hc]%orb_true_iff.
      * by apply is_lower_fixed.
      * by apply is_digit_toLowerCase.
    + apply is_alnum_not_sep.
Qed.

Lemma X3_parse_handwriting_idempotent_witness :
  parse_handwriting (str "A C C D C Cd") = Some (str "A C C D C Cd")
  ∧ parse_handwriting_ts (str "Rizz Riso00tto") = Some (str "Rizz Riso00tto").
Proof.
  split.
  - apply (proj1 (X3_parse_handwriting_idempotent
                    (str " a-c-c-___d -_-c_CD") (str "A C C D C Cd"))).
    vm_compute. reflexivity.
  - apply (proj2 (X3_parse_handwriting_idempotent
                    (str "  Riz@z RISO00tto!") (str "Rizz Riso00tto"))).
    vm_compute. reflexivity.
Defined.

(** X4. [parse_handwriting] changes nothing but case and spacing: without
    its spaces and in lower case, the result is the sequence of the
    letters of the input in lower case (for [devdonalds.ts]: of its
    letters and digits). *)
Theorem X4_parse_handwriting_letters :
  ∀ s out : jsstring,
    (parse_handwriting s = Some out →
     toLowerCase <$> filter (λ c, c ≠ 32%N) out
     = toLowerCase <$> filter (λ c, is_alpha c = true) s)
    ∧ (parse_handwriting_ts s = Some out →
       toLowerCase <$> filter (λ c, c ≠ 32%N) out
       = toLowerCase <$> filter (λ c, is_alnum c = true) s).
Proof.
  intros s out. unfold parse_handwriting, parse_handwriting_ts.
  rewrite (parse_with_scan is_alpha is_alpha_not_sep).
  rewrite (parse_with_scan is_alnum is_alnum_not_sep).
  unfold title_scan. split.
  - destruct (existsb is_alpha s); [|done]. intros [= <-].
    apply scan_letters.
    + apply is_alpha_not_sep.
    + intros c Hc. by apply is_alnum_upper_not_space, is_alpha_alnum.
    + intros c Hc. by apply is_alnum_lower_not_space, is_alpha_alnum.
  - destruct (existsb is_alnum s); [|done]. intros [= <-].
    apply scan_letters.
    + apply is_alnum_not_sep.
    + apply is_alnum_upper_not_space.
    + apply is_alnum_lower_not_space.
Qed.

Lemma X4_parse_handwriting_letters_witness :
  toLowerCase <$> filter (λ c, c ≠ 32%N) (str "Rizz Risotto")
  = toLowerCase <$> filter (λ c, is_alpha c = true) (str "  Riz@z RISO00tto!").
Proof.
  apply (proj1 (X4_parse_handwriting_letters
                  (str "  Riz@z RISO00tto!") (str "Rizz Risotto"))).
  vm_compute. reflexivity.
Defined.

(** X5. The result of [parse_handwriting] does not depend on the case of
    the letters A to Z of the input: writing them in lower case first
    gives the same result (both versions). *)
Theorem X5_parse_handwriting_case_insensitive :
  ∀ s : jsstring,
    parse_handwriting (toLowerCase <$> s) = parse_handwriting s
    ∧ parse_handwriting_ts (toLowerCase <$> s) = parse_handwriting_ts s.
Proof.
  intros s. unfold parse_handwriting, parse_handwriting_ts.
  rewrite !(parse_with_scan is_alpha is_alpha_not_sep).
  rewrite !(parse_with_scan is_alnum is_alnum_not_sep).
  unfold title_scan. rewrite !existsb_fmap.
  rewrite (existsb_ext (is_alpha ∘ toLowerCase) is_alpha)
    by (apply Forall_forall; intros c _; apply is_alpha_toLowerCase).
  rewrite (existsb_ext (is_alnum ∘ toLowerCase) is_alnum)
    by (apply Forall_forall; intros c _; apply is_alnum_toLowerCase).
  rewrite !scan_lower; [done | apply is_alnum_toLowerCase
                       | apply is_alpha_toLowerCase].
Qed.

(** X6. Two inputs joined by a separator (white space, hyphen or
    underscore) give the two results joined by one space, or the one
    result there is, or [null] (both versions). *)
Theorem X6_parse_handwriting_concat :
  ∀ (s1 s2 : jsstring) (c : N),
    is_sep c = true →
    parse_handwriting (s1 ++ c :: s2)
    = match parse_handwriting s1, parse_handwriting s2 with
      | Some a, Some b => Some (a ++ 32%N :: b)
      | Some a, None => Some a
      | None, o => o
      end
    ∧ parse_handwriting_ts (s1 ++ c :: s2)
      = match parse_handwriting_ts s1, parse_handwriting_ts s2 with
        | Some a, Some b => Some (a ++ 32%N :: b)
        | Some a, None => Some a
        | None, o => o
        end.
Proof.
  intros s1 s2 c Hc. unfold parse_handwriting, parse_handwriting_ts.
  rewrite !(parse_with_scan is_alpha is_alpha_not_sep).
  rewrite !(parse_with_scan is_alnum is_alnum_not_sep).
  split; apply title_scan_sep_app;
    [apply is_alpha_not_sep | done | apply is_alnum_not_sep | done].
Qed.

Lemma X6_parse_handwriting_concat_witness :
  parse_handwriting (str "alpHa" ++ 45%N :: str "aFREDO")
  = match parse_handwriting (str "alpHa"), parse_handwriting (str "aFREDO") with
    | Some a, Some b => Some (a ++ 32%N :: b)
    | Some a, None => Some a
    | None, o => o
    end.
Proof.
  apply (proj1 (X6_parse_handwriting_concat (str "alpHa") (str "aFREDO") 45%N
                  eq_refl)).
Defined.

(** X7. On an input without digits the two versions of
    [parse_handwriting] return the same. *)
Theorem X7_parse_handwriting_versions_agree :
  ∀ s : jsstring,
    Forall (λ c, is_digit c = false) s →
    parse_handwriting_ts s = parse_handwriting s.
Proof.
  intros s Hs. unfold parse_handwriting, parse_handwriting_ts.
  rewrite (parse_with_scan is_alpha is_alpha_not_sep).
  rewrite (parse_with_scan is_alnum is_alnum_not_sep).
  assert (Forall (λ c, is_alnum c = is_alpha c) s) as Heq.
  { eapply Forall_impl; [exact Hs|]. intros c Hc. unfold is_alnum.
    by rewrite Hc, orb_false_r. }
  unfold title_scan. by rewrite (existsb_ext _ _ _ Heq), (scan_ext _ _ _ _ _ Heq).
Qed.

Lemma X7_parse_handwriting_versions_agree_witness :
  parse_handwriting_ts (str " a-c-c-___d -_-c_CD")
  = parse_handwriting (str " a-c-c-___d -_-c_CD").
Proof.
  apply (X7_parse_handwriting_versions_agree (str " a-c-c-___d -_-c_CD")).
  apply (bool_decide_unpack _). vm_compute. reflexivity.
Defined.

(** X8. The [/parse] handler answers 400 with [this string is cooked]
    exactly when the input string has no letter, and otherwise answers
    with the result of [parse_handwriting] as [msg]; on a string it never
    raises. *)
Theorem X8_post_parse :
  ∀ s : jsstring,
    (post_parse (Some s) = Return (Cooked 400 "this string is cooked")
     ↔ Forall (λ c, is_alpha c = false) s)
    ∧ ((∃ out, post_parse (Some s) = Return (Msg out)
               ∧ parse_handwriting s = Some out)
       ↔ ¬ Forall (λ c, is_alpha c = false) s).
Proof.
  intros s. unfold post_parse.
  pose proof (parse_with_null is_alpha is_alpha_not_sep s) as Hnull.
  fold (parse_handwriting s) in Hnull.
  destruct (parse_handwriting s) as [out|] eqn:Hparse.
  - split.
    + split; [done|]. intros H%Hnull. done.
    + split; [|by eauto]. intros _ H%Hnull. done.
  - split.
    + split; [|done]. intros _. by apply Hnull.
    + split; [by intros (out & ? & ?)|]. intros H. destruct H. by apply Hnull.
Qed.

(** ** Resolution *)

(** X9. On a recipe whose tree of required items is well founded (no
    recipe below it requires itself), [getRecipeIngredients] returns, with
    the same result for every budget that is large enough. *)
Theorem X9_resolution_terminates :
  ∀ (cookbook : Cookbook) (r : Recipe),
    acyclic cookbook r →
    ∃ fuel v, ∀ fuel', (fuel ≤ fuel')%nat →
      getRecipeIngredients fuel' cookbook r = Return v.
Proof.
  intros cookbook r (fuel & v & Hv)%getRecipeIngredients_returns.
  exists fuel, v. intros fuel' Hle.
  by apply (getRecipeIngredients_mono cookbook fuel fuel').
Qed.

Lemma X9_resolution_terminates_witness :
  ∃ fuel v, ∀ fuel', (fuel ≤ fuel')%nat →
    getRecipeIngredients fuel' scenarioB cake = Return v.
Proof. apply (X9_resolution_terminates scenarioB cake), acyclic_cake. Defined.

(** X10. [getRecipeIngredients] returns a table exactly when the tree of
    required items is well founded and every name in it is an ingredient
    or a recipe of the catalog. *)
Theorem X10_resolution_success_iff :
  ∀ (cookbook : Cookbook) (r : Recipe),
    (∃ fuel t, getRecipeIngredients fuel cookbook r = Return (Some t))
    ↔ acyclic cookbook r
      ∧ ∀ n, mentions cookbook r n →
             is_Some (cookbook.(ingredients) !! n)
             ∨ is_Some (cookbook.(recipes) !! n).
Proof.
  intros cookbook r. split.
  - intros (fuel & t & Hres). split.
    + by eapply getRecipeIngredients_acyclic.
    + intros n Hm.
      destruct (cookbook.(ingredients) !! n) eqn:Hi; [left; eauto|].
      destruct (cookbook.(recipes) !! n) eqn:Hr; [right; eauto|].
      by destruct (mentions_unknown_fails cookbook r n fuel t).
  - intros [(fuel & v & Hv)%getRecipeIngredients_returns Hknown].
    destruct v as [t|]; [by eauto|].
    apply getRecipeIngredients_null in Hv as (n & Hm & Hi & Hr).
    destruct (Hknown n Hm) as [[? H]|[? H]]; congruence.
Qed.

(** X11. The table that [getRecipeIngredients] returns has pairwise
    different keys, and its keys are exactly the names in the tree of
    required items that are ingredients (also those required with
    quantity 0). *)
Theorem X11_table_keys :
  ∀ (cookbook : Cookbook) (fuel : nat) (r : Recipe) (t : Table),
    getRecipeIngredients fuel cookbook r = Return (Some t) →
    NoDup t.*1
    ∧ ∀ x, x ∈ t.*1
           ↔ mentions cookbook r x ∧ is_Some (cookbook.(ingredients) !! x).
Proof.
  intros cookbook fuel r t Hres. split.
  - by destruct (getRecipeIngredients_ok _ _ _ _ Hres).
  - intros x. by apply (getRecipeIngredients_keys cookbook fuel).
Qed.

Lemma X11_table_keys_witness :
  NoDup [("egg"%string, qz 7); ("flour"%string, qz 3)].*1
  ∧ ∀ x, x ∈ [("egg"%string, qz 7); ("flour"%string, qz 3)].*1
         ↔ mentions scenarioB cake x
           ∧ is_Some (scenarioB.(ingredients) !! x).
Proof.
  apply (X11_table_keys scenarioB 2%nat cake). vm_compute. reflexivity.
Defined.

(** X12. There is no guard against cycles: a recipe that is stored under
    a name that is not an ingredient, and that requires that name after
    required items that are all ingredients, makes [getRecipeIngredients]
    recurse for ever. *)
Theorem X12_self_requiring_diverges :
  ∀ (cookbook : Cookbook) (r : Recipe) (n : string) (q : float)
    (pre rest : list RequiredItem),
    cookbook.(ingredients) !! n = None →
    cookbook.(recipes) !! n = Some r →
    requiredItems r = pre ++ mkRequiredItem n q :: rest →
    Forall (λ it, is_Some (cookbook.(ingredients) !! item_name it)) pre →
    ∀ fuel, getRecipeIngredients fuel cookbook r = Diverge.
Proof.
  intros cookbook r n q pre rest Hi Hr Hitems Hpre fuel.
  induction fuel as [|fuel IH]; [done|].
  simpl. rewrite Hitems.
  destruct (resolveItems_ingredients (getRecipeIngredients fuel cookbook)
              cookbook pre (mkRequiredItem n q :: rest) [] Hpre) as [t1 ->].
  simpl. by rewrite Hi, Hr, IH.
Qed.

Lemma X12_self_requiring_diverges_witness :
  getRecipeIngredients 1000 cyclic_cookbook ouroboros = Diverge.
Proof.
  apply (X12_self_requiring_diverges cyclic_cookbook ouroboros
           "ouroboros"%string (qz 1) [] []).
  - vm_compute. reflexivity.
  - vm_compute. reflexivity.
  - reflexivity.
  - constructor.
Defined.



(** X15. A recipe whose required items are all ingredients, with pairwise
    different names, resolves to its own list: the summary lists the
    required items in their order, each quantity added to [0], and its
    cookTime is what adding cookTime times quantity, item after item from
    [0], gives. *)
Theorem X15_flat_recipe :
  ∀ (cookbook : Cookbook) (fuel : nat) (r : Recipe),
    Forall (λ it, is_Some (cookbook.(ingredients) !! item_name it))
      (requiredItems r) →
    NoDup (item_name <$> requiredItems r) →
    buildSummary (S fuel) cookbook r
    = Return (Some (mkSummary (recipe_name r)
                      (fold_left
                         (λ acc it, acc + cookTime_of cookbook (item_name it)
                                          * (0 + quantity it))
                         (requiredItems r) 0)
                      ((λ it, (item_name it, 0 + quantity it))
                         <$> requiredItems r))).
Proof.
  intros cookbook fuel r Hall Hnd.
  assert (getRecipeIngredients (S fuel) cookbook r
          = Return (Some ((λ it, (item_name it, 0 + quantity it))
                            <$> requiredItems r))) as Hres.
  { simpl. by rewrite (resolveItems_flat cookbook _ _ [] Hall). }
  rewrite (buildSummary_spec _ _ _ _ Hres). do 3 f_equal.
  unfold total_cookTime. by rewrite fold_left_fmap.
Qed.

(** Scenario A. *)
Lemma X15_flat_recipe_witness :
  buildSummary 1 scenarioA batter
  = Return (Some (mkSummary "batter"
                    (fold_left
                       (λ acc it, acc + cookTime_of scenarioA (item_name it)
                                        * (0 + quantity it))
                       (requiredItems batter) 0)
                    ((λ it, (item_name it, 0 + quantity it))
                       <$> requiredItems batter))).
Proof.
  apply (X15_flat_recipe scenarioA 0%nat batter).
  - repeat constructor; eexists; vm_compute; reflexivity.
  - apply (bool_decide_unpack _). vm_compute. reflexivity.
Defined.

(** ** addToMapEntry *)

(** X16. Adding a list of entries to a table with [addToMapEntry], one
    after the other, adds to every key the quantities given for it, from
    left to right (an absent key starts at 0); the keys that were in the
    table keep their places, new keys come after them, and no key appears
    twice. *)
Theorem X16_addToMapEntry_accumulates :
  ∀ (entries : list (string * float)) (t : Table),
    (∀ x, map_get x (add_table entries t)
          = fold_left (λ acc k, Some (default 0 acc + k))
              (snd <$> filter (λ kv, kv.1 = x) entries) (map_get x t))
    ∧ t.*1 `prefix_of` (add_table entries t).*1
    ∧ (NoDup t.*1 → NoDup (add_table entries t).*1).
Proof.
  intros entries t. split_and!.
  - intros x. apply map_get_add_table.
  - apply add_table_prefix.
  - apply add_table_NoDup.
Qed.

(** ** The [/entry] handler *)

(** X17. When [/entry] answers 200, the name of the entry was in neither
    map before, the entry is now stored under its name in the map of its
    kind, and every other name is looked up as before in both maps. *)
Theorem X17_registration_effect :
  ∀ (cookbook : Cookbook) (e : CookbookEntry),
    status (post_entry cookbook (ParseSuccess e)).2 = 200%nat →
    cookbook.(ingredients) !! entry_name e = None
    ∧ cookbook.(recipes) !! entry_name e = None
    ∧ match e with
      | EntryRecipe r =>
          (post_entry cookbook (ParseSuccess e)).1.(recipes) !! recipe_name r
          = Some r
          ∧ (post_entry cookbook (ParseSuccess e)).1.(ingredients)
            = cookbook.(ingredients)
      | EntryIngredient i =>
          (post_entry cookbook (ParseSuccess e)).1.(ingredients)
            !! ingredient_name i = Some i
          ∧ (post_entry cookbook (ParseSuccess e)).1.(recipes)
            = cookbook.(recipes)
      end
    ∧ ∀ n, n ≠ entry_name e →
        (post_entry cookbook (ParseSuccess e)).1.(ingredients) !! n
        = cookbook.(ingredients) !! n
        ∧ (post_entry cookbook (ParseSuccess e)).1.(recipes) !! n
          = cookbook.(recipes) !! n.
Proof.
  intros cookbook e H200.
  destruct (post_entry_200 _ _ H200) as (e' & [= <-] & Hi & Hr & _ & ->).
  split_and!; [done..| |].
  - destruct e as [r|i]; simpl; by rewrite lookup_insert_eq.
  - intros n Hn. by apply insert_entry_lookup_ne.
Qed.

Lemma X17_registration_effect_witness :
  scenarioA.(ingredients) !! "cake"%string = None
  ∧ scenarioA.(recipes) !! "cake"%string = None
  ∧ ((post_entry scenarioA (ParseSuccess (EntryRecipe cake))).1.(recipes)
       !! "cake"%string = Some cake
     ∧ (post_entry scenarioA (ParseSuccess (EntryRecipe cake))).1.(ingredients)
       = scenarioA.(ingredients))
  ∧ ∀ n, n ≠ "cake"%string →
      (post_entry scenarioA (ParseSuccess (EntryRecipe cake))).1.(ingredients)
        !! n = scenarioA.(ingredients) !! n
      ∧ (post_entry scenarioA (ParseSuccess (EntryRecipe cake))).1.(recipes)
          !! n = scenarioA.(recipes) !! n.
Proof.
  apply (X17_registration_effect scenarioA (EntryRecipe cake)).
  vm_compute. reflexivity.
Defined.

(** X18. Nothing is ever removed or replaced: an ingredient or a recipe of
    the catalog is still there, unchanged, after any sequence of [/entry]
    requests. *)
Theorem X18_entries_persist :
  ∀ (cookbook : Cookbook) (reqs : list SafeParseReturn) (n : string),
    (∀ i, cookbook.(ingredients) !! n = Some i →
          (post_entries cookbook reqs).(ingredients) !! n = Some i)
    ∧ (∀ r, cookbook.(recipes) !! n = Some r →
            (post_entries cookbook reqs).(recipes) !! n = Some r).
Proof.
  intros cookbook reqs n.
  destruct (post_entries_extends cookbook reqs) as (Hi & Hr & _).
  split; intros x; [apply Hi | apply Hr].
Qed.

(** X19. In every catalog that [/entry] requests build from the empty
    one, a recipe is stored under its own name and its required items
    have pairwise different names, and an ingredient is stored under its
    own name. *)
Theorem X19_stored_entries_wellformed :
  ∀ reqs : list SafeParseReturn,
    (∀ n r, (post_entries cookbook0 reqs).(recipes) !! n = Some r →
            recipe_name r = n ∧ NoDup (item_name <$> requiredItems r))
    ∧ (∀ n i, (post_entries cookbook0 reqs).(ingredients) !! n = Some i →
              ingredient_name i = n).
Proof.
  intros reqs. apply post_entries_named.
  - intros n r Hn. simpl in Hn. by rewrite lookup_empty in Hn.
  - intros n i Hn. simpl in Hn. by rewrite lookup_empty in Hn.
Qed.

(** X20. A request that was answered 200 is refused with the
    duplicate-name answer when it is sent again, and changes nothing. *)
Theorem X20_reregistration_refused :
  ∀ (cookbook : Cookbook) (req : SafeParseReturn),
    status (post_entry cookbook req).2 = 200%nat →
    post_entry (post_entry cookbook req).1 req
    = ((post_entry cookbook req).1,
       mkResponse 400
         (Text "An existing entry with the same name already exist.")).
Proof.
  intros cookbook req H200.
  destruct (post_entry_200 _ _ H200) as (e & -> & _ & _ & _ & ->).
  apply post_entry_duplicate_name.
  destruct e as [r|i]; simpl; [right|left]; by rewrite lookup_insert_eq.
Qed.

Lemma X20_reregistration_refused_witness :
  post_entry (post_entry scenarioA (ParseSuccess (EntryRecipe cake))).1
    (ParseSuccess (EntryRecipe cake))
  = ((post_entry scenarioA (ParseSuccess (EntryRecipe cake))).1,
     mkResponse 400
       (Text "An existing entry with the same name already exist.")).
Proof.
  apply (X20_reregistration_refused scenarioA (ParseSuccess (EntryRecipe cake))).
  vm_compute. reflexivity.
Defined.

(** X21. Two entries with different names can be sent in either order:
    each gets the same answer and the catalog ends up the same. *)
Theorem X21_registrations_commute :
  ∀ (cookbook : Cookbook) (e1 e2 : CookbookEntry),
    entry_name e1 ≠ entry_name e2 →
    (post_entry (post_entry cookbook (ParseSuccess e1)).1 (ParseSuccess e2)).1
    = (post_entry (post_entry cookbook (ParseSuccess e2)).1 (ParseSuccess e1)).1
    ∧ (post_entry (post_entry cookbook (ParseSuccess e2)).1 (ParseSuccess e1)).2
      = (post_entry cookbook (ParseSuccess e1)).2
    ∧ (post_entry (post_entry cookbook (ParseSuccess e1)).1 (ParseSuccess e2)).2
      = (post_entry cookbook (ParseSuccess e2)).2.
Proof.
  intros cookbook e1 e2 Hne.
  destruct (post_entry_other_name cookbook e2 e1 (not_eq_sym Hne))
    as [Hi2 Hr2].
  destruct (post_entry_other_name cookbook e1 e2 Hne) as [Hi1 Hr1].
  destruct (post_entry_same_lookup cookbook _ e2 Hi2 Hr2) as [Hres2 Hst2].
  destruct (post_entry_same_lookup cookbook _ e1 Hi1 Hr1) as [Hres1 Hst1].
  split_and!; [|done..].
  destruct Hst1 as [[E1 E1']|[E1 E1']]; destruct Hst2 as [[E2 E2']|[E2 E2']];
    rewrite E1', E2', ?E1, ?E2; try done.
  symmetry. by apply insert_entry_commute.
Qed.

Lemma X21_registrations_commute_witness :
  (post_entry (post_entry cookbook0 (ParseSuccess egg)).1 (ParseSuccess flour)).1
  = (post_entry (post_entry cookbook0 (ParseSuccess flour)).1 (ParseSuccess egg)).1
  ∧ (post_entry (post_entry cookbook0 (ParseSuccess flour)).1 (ParseSuccess egg)).2
    = (post_entry cookbook0 (ParseSuccess egg)).2
  ∧ (post_entry (post_entry cookbook0 (ParseSuccess egg)).1 (ParseSuccess flour)).2
    = (post_entry cookbook0 (ParseSuccess flour)).2.
Proof. apply (X21_registrations_commute cookbook0 egg flour). discriminate. Defined.

(** ** The [/summary] handler *)

(** X22. A summary that was answered stays the same: after any sequence
    of [/entry] requests the handler gives the same answer 200 to the same
    query. *)
Theorem X22_summary_stable :
  ∀ (cookbook : Cookbook) (fuel : nat) (n : string) (s : Summary)
    (reqs : list SafeParseReturn),
    get_summary fuel cookbook (Some n) = Return (mkResponse 200 (Json s)) →
    get_summary fuel (post_entries cookbook reqs) (Some n)
    = Return (mkResponse 200 (Json s)).
Proof.
  intros cookbook fuel n s reqs Hs.
  pose proof (post_entries_extends cookbook reqs) as Hext.
  unfold get_summary in *.
  destruct (cookbook.(ingredients) !! n) eqn:Hi; [done|].
  destruct (cookbook.(recipes) !! n) as [r|] eqn:Hr; [|done].
  destruct (buildSummary fuel cookbook r) as [| |[s'|]] eqn:Hb; try done.
  injection Hs as ->.
  destruct Hext as (Hi' & Hr' & Hn').
  rewrite (Hn' n Hi) by (by rewrite Hr). rewrite (Hr' _ _ Hr).
  by rewrite (buildSummary_extends cookbook _ fuel r s
                (post_entries_extends cookbook reqs) Hb).
Qed.

Lemma X22_summary_stable_witness :
  get_summary 1 (post_entries scenarioA [ParseSuccess (EntryRecipe cake)])
    (Some "batter"%string)
  = Return (mkResponse 200
              (Json (mkSummary "batter" (qz 12)
                       [("egg"%string, qz 2); ("flour"%string, qz 1)]))).
Proof.
  apply (X22_summary_stable scenarioA 1%nat "batter"%string
           (mkSummary "batter" (qz 12)
              [("egg"%string, qz 2); ("flour"%string, qz 1)])
           [ParseSuccess (EntryRecipe cake)]).
  vm_compute. reflexivity.
Defined.


(** X23. In a catalog built by [/entry] requests from the empty one, a
    summary answered by [/summary] has the queried name, lists every
    ingredient once and lists only ingredients of the catalog; when the
    requests were accepted by the schema, no quantity and no cookTime in
    it is below zero (each is at least [0], or [nan]). *)
Theorem X23_summary_of_registered :
  ∀ (reqs : list SafeParseReturn) (fuel : nat) (n : string) (s : Summary),
    get_summary fuel (post_entries cookbook0 reqs) (Some n)
    = Return (mkResponse 200 (Json s)) →
    summary_name s = n
    ∧ NoDup (summary_ingredients s).*1
    ∧ (∀ k, k ∈ (summary_ingredients s).*1 →
            is_Some ((post_entries cookbook0 reqs).(ingredients) !! k))
    ∧ (Forall parsed_ok reqs →
       not_negative (summary_cookTime s)
       ∧ table_not_negative (summary_ingredients s)).
Proof.
  intros reqs fuel n s Hs. set (cb := post_entries cookbook0 reqs) in *.
  assert (∀ n r, cb.(recipes) !! n = Some r → recipe_name r = n) as Hnamed.
  { intros n' r Hr. eapply (post_entries_named cookbook0 reqs); [| |exact Hr].
    - intros ? ? H. simpl in H. by rewrite lookup_empty in H.
    - intros ? ? H. simpl in H. by rewrite lookup_empty in H. }
  unfold get_summary in Hs.
  destruct (cb.(ingredients) !! n) eqn:Hi; [done|].
  destruct (cb.(recipes) !! n) as [r|] eqn:Hr; [|done].
  destruct (getRecipeIngredients fuel cb r) as [| |[t|]] eqn:Hres;
    try (unfold buildSummary in Hs; by rewrite Hres in Hs).
  rewrite (buildSummary_spec _ _ _ _ Hres) in Hs. injection Hs as <-.
  simpl. destruct (getRecipeIngredients_ok _ _ _ _ Hres) as [Hnd Hin].
  split_and!; [by apply Hnamed | done | done |].
  intros Hok.
  assert (catalog_nonneg cb) as Hcat.
  { apply post_entries_nonneg; [done|].
    split; intros ? ? H; simpl in H; by rewrite lookup_empty in H. }
  assert (table_not_negative t) as Ht.
  { eapply getRecipeIngredients_not_negative; [done| |done].
    by apply (proj1 Hcat n). }
  split; [by apply total_cookTime_not_negative|done].
Qed.

Lemma X23_summary_of_registered_witness :
  summary_name (mkSummary "cake" (qz 41)
                  [("egg"%string, qz 7); ("flour"%string, qz 3)])
  = "cake"%string
  ∧ NoDup [("egg"%string, qz 7); ("flour"%string, qz 3)].*1
  ∧ (∀ k, k ∈ [("egg"%string, qz 7); ("flour"%string, qz 3)].*1 →
          is_Some ((post_entries cookbook0
                      [ParseSuccess egg; ParseSuccess flour;
                       ParseSuccess (EntryRecipe batter);
                       ParseSuccess (EntryRecipe cake)]).(ingredients) !! k))
  ∧ (Forall parsed_ok
       [ParseSuccess egg; ParseSuccess flour;
        ParseSuccess (EntryRecipe batter); ParseSuccess (EntryRecipe cake)] →
     not_negative (qz 41)
     ∧ table_not_negative [("egg"%string, qz 7); ("flour"%string, qz 3)]).
Proof.
  apply (X23_summary_of_registered
           [ParseSuccess egg; ParseSuccess flour;
            ParseSuccess (EntryRecipe batter); ParseSuccess (EntryRecipe cake)]
           2%nat "cake"%string
           (mkSummary "cake" (qz 41)
              [("egg"%string, qz 7); ("flour"%string, qz 3)])).
  vm_compute. reflexivity.
Defined.


